(** * Trade executor: grid search orchestration and indicator cache

    A shallow embedding of [tradeexecutor/backtest/grid_search.py] and of the
    indicator definition / storage / calculation layer exercised by
    [tests/backtest/test_indicator.py], with the properties the specification
    states about them.

    The model:
    - [Python]: the part of the Python runtime the code relies on: exceptions,
      objects with [==], [hash] and [str], [os.path.join], [pathlib.Path] and
      a file system with directories and pickled files.
    - [GridSearch]: [GridParameter], [GridCombination], [GridSearchResult],
      [prepare_grid_combinations], [run_grid_combination], [perform_grid_search]
      with its thread pool, whose threads interleave step by step.
    - [Indicator]: [IndicatorDefinition], [IndicatorStorage], [IndicatorSet] and
      [calculate_and_load_indicators].
    - [GridScenarios], [IndicatorScenarios]: concrete inputs.

    The properties: [PythonFacts] (sequencing, loops, [mkdir]),
    [GridSearchFacts] (C2 to C7 and C10), [IndicatorFacts] (C1, C8, C9) and
    [GridSearchProperties] (X1 to X19: round trips, resumption and the layout
    of the results of the grid search code). *)

From Stdlib Require Import ZArith String Ascii List Bool Lia.
From stdpp Require Import gmap strings list pretty.

(** ** The Python runtime *)

Module Python.

(** Exceptions.  [Raised msg] is any exception a user callback raises;
    [IndicatorFunctionSignatureMismatch] is the indicator layer's own, carrying
    the parameter names it complains about. *)
Inductive pyexn :=
  | AssertionError
  | NotImplementedError
  | KeyError
  | TypeError
  | FileNotFoundError
  | FileExistsError
  | NotADirectoryError
  | IsADirectoryError
  | DirectoryNotEmpty      (* OSError(ENOTEMPTY) *)
  | InvalidArgument        (* OSError: rmdir of "/" (EBUSY) or of "." (EINVAL) *)
  | IndicatorFunctionSignatureMismatch (offending : list string)
  | Raised (msg : string).

#[global] Instance pyexn_eq_dec : EqDecision pyexn.
Proof. solve_decision. Defined.

(** Code that mutates the world and may raise: the state survives a raise. *)
Definition M (S A : Type) : Type := S → S * (pyexn + A).

#[global] Instance M_ret {S} : MRet (M S) := λ A a s, (s, inr a).
#[global] Instance M_bind {S} : MBind (M S) := λ A B f c s,
  match c s with
  | (s', inl e) => (s', inl e)
  | (s', inr a) => f a s'
  end.

Definition raise {S A} (e : pyexn) : M S A := λ s, (s, inl e).
Definition gets {S A} (f : S → A) : M S A := λ s, (s, inr (f s)).
Definition modify {S} (f : S → S) : M S () := λ s, (f s, inr ()).

(** [assert b] *)
Definition assert {S} (b : bool) : M S () :=
  if b then mret () else raise AssertionError.

(** A pure computation that may raise, run inside [M]. *)
Definition lift {S A} (r : pyexn + A) : M S A :=
  match r with inl e => raise e | inr a => mret a end.

(** [type(v)]: the builtin types that occur, and the others. *)
Inductive pytype := TInt | TFloat | TStr | TBool | TNone | TList | TOther.

#[global] Instance pytype_eq_dec : EqDecision pytype.
Proof. solve_decision. Defined.

(** [hash] of strings and of tuples (from the hashes of the items); both are
    interpreter specific. *)
Class PyHashing := {
  hash_str : string → Z;
  hash_tuple : list Z → Z
}.

(** What the grid search uses of a value of type [Any]: its exact type, [==],
    [hash] (a [TypeError] for an unhashable object) and the text an f-string
    renders. *)
Class PyObject (V : Type) := {
  py_type : V → pytype;
  py_eq : V → V → bool;
  py_hash : V → pyexn + Z;
  py_str : V → string
}.

(** The data model's contract for hashable objects: objects that compare
    equal have the same hash. *)
Class PyHashable (V : Type) `{PyObject V} : Prop :=
  py_hash_eq : ∀ (v w : V) (h k : Z),
    py_eq v w = true → py_hash v = inr h → py_hash w = inr k → h = k.

(** [hash(n)] of an [int]: reduction modulo the Mersenne prime 2^61 - 1,
    keeping the sign; -1 is reserved. *)
Definition hash_int (n : Z) : Z :=
  let h := (Z.sgn n * (Z.abs n mod (2 ^ 61 - 1)))%Z in
  if (h =? -1)%Z then (-2)%Z else h.

(** The values used in the examples: [int], [str], [bool], [None] and lists
    of ints (no floats: their text and their equality are not needed there). *)
Inductive pyval :=
  | VInt (n : Z)
  | VStr (s : string)
  | VBool (b : bool)
  | VNone
  | VList (l : list Z).

Definition pyval_type (v : pyval) : pytype :=
  match v with
  | VInt _ => TInt | VStr _ => TStr | VBool _ => TBool | VNone => TNone
  | VList _ => TList
  end.

(** [bool] is a subclass of [int]: [True == 1] and [False == 0]. *)
Definition pyval_eq (v w : pyval) : bool :=
  match v, w with
  | VInt a, VInt b => (a =? b)%Z
  | VInt a, VBool b | VBool b, VInt a => (a =? Z.b2z b)%Z
  | VBool a, VBool b => Bool.eqb a b
  | VStr s, VStr t => String.eqb s t
  | VNone, VNone => true
  | VList l, VList k => bool_decide (l = k)
  | _, _ => false
  end.

(** A list is unhashable. *)
Definition pyval_hash `{PyHashing} (v : pyval) : pyexn + Z :=
  match v with
  | VInt n => inr (hash_int n)
  | VBool b => inr (Z.b2z b)
  | VStr s => inr (hash_str s)
  | VNone => inr 4238894112%Z
  | VList _ => inl TypeError
  end.

Definition pyval_str (v : pyval) : string :=
  match v with
  | VInt n => pretty n
  | VStr s => s
  | VBool true => "True"
  | VBool false => "False"
  | VNone => "None"
  | VList l => "[" +:+ String.concat ", " (pretty <$> l) +:+ "]"
  end.

#[global] Instance pyval_object `{PyHashing} : PyObject pyval := {
  py_type := pyval_type;
  py_eq := pyval_eq;
  py_hash := pyval_hash;
  py_str := pyval_str
}.

(** A deterministic string hash (the multiplicative hash of CPython before
    hash randomisation) and the tuple hash of CPython 3.8+, on 64 bits. *)
Definition wrap64 (x : Z) : Z := (x mod 2 ^ 64)%Z.

Definition signed64 (x : Z) : Z :=
  let y := wrap64 x in if (y <? 2 ^ 63)%Z then y else (y - 2 ^ 64)%Z.

Definition ord (c : ascii) : Z := Z.of_nat (nat_of_ascii c).

Fixpoint string_ords (s : string) : list Z :=
  match s with
  | EmptyString => []
  | String c r => ord c :: string_ords r
  end.

Definition legacy_hash_str (s : string) : Z :=
  match string_ords s with
  | [] => 0%Z
  | (c :: _) as cs =>
      let x := fold_left (λ x c, wrap64 (Z.lxor (1000003 * x) c)) cs (wrap64 (Z.shiftl c 7)) in
      let x := signed64 (Z.lxor x (Z.of_nat (length cs))) in
      if (x =? -1)%Z then (-2)%Z else x
  end.

Definition rotl64 (x r : Z) : Z :=
  wrap64 (Z.lor (Z.shiftl x r) (Z.shiftr (wrap64 x) (64 - r))).

Definition xx_hash_tuple (hs : list Z) : Z :=
  let prime1 := 11400714785074694791%Z in
  let prime2 := 14029467366897019727%Z in
  let prime5 := 2870177450012600261%Z in
  let acc := fold_left
    (λ acc lane, wrap64 (rotl64 (wrap64 (acc + wrap64 lane * prime2)) 31 * prime1))
    hs prime5 in
  let acc := wrap64 (acc + Z.lxor (Z.of_nat (length hs)) (Z.lxor prime5 3527539)) in
  if (acc =? 2 ^ 64 - 1)%Z then 1546275796%Z else signed64 acc.

Definition cpython_hashing : PyHashing := {|
  hash_str := legacy_hash_str;
  hash_tuple := xx_hash_tuple
|}.

(** *** [os.path] and [pathlib] (POSIX flavour) *)

Definition sep : ascii := "/"%char.

Definition startswith_sep (s : string) : bool :=
  match s with
  | String c _ => bool_decide (c = sep)
  | EmptyString => false
  end.

Fixpoint endswith_sep (s : string) : bool :=
  match s with
  | EmptyString => false
  | String c EmptyString => bool_decide (c = sep)
  | String _ r => endswith_sep r
  end.

(** One round of the loop of [posixpath.join]. *)
Definition join_step (path b : string) : string :=
  if startswith_sep b then b
  else if bool_decide (path = "") || endswith_sep path then path +:+ b
  else path +:+ "/" +:+ b.

(** [os.path.join] applied to the unpacked list; the first argument is
    mandatory. *)
Definition os_path_join (parts : list string) : pyexn + string :=
  match parts with
  | [] => inl TypeError
  | a :: p => inr (fold_left join_step p a)
  end.

(** [s.split("/")] *)
Fixpoint split_sep (s : string) : list string :=
  match s with
  | EmptyString => [""]
  | String c r =>
      if bool_decide (c = sep) then "" :: split_sep r
      else match split_sep r with
           | h :: t => String c h :: t
           | [] => [String c ""]
           end
  end.

(** Does [s] contain a separator. *)
Fixpoint has_sep (s : string) : bool :=
  match s with
  | EmptyString => false
  | String c r => bool_decide (c = sep) || has_sep r
  end.

(** A [PurePosixPath]: anchored at the root or not, and its components. *)
Record Path := MkPath { is_absolute : bool; parts : list string }.

#[global] Instance Path_eq_dec : EqDecision Path.
Proof. solve_decision. Defined.

#[global] Instance Path_countable : Countable Path.
Proof.
  refine (inj_countable' (λ p, (is_absolute p, parts p)) (λ q, MkPath q.1 q.2) _).
  by intros [].
Defined.

(** [Path(s)]: empty components and single dots are dropped; a path is
    absolute when the text starts with a separator (a leading double
    separator is not kept apart). *)
Definition parse_path (s : string) : Path :=
  MkPath (startswith_sep s)
         (filter (λ x, x ≠ "" ∧ x ≠ ".") (split_sep s)).

(** [p.joinpath(q)]: an absolute [q] replaces [p]. *)
Definition joinpath (p q : Path) : Path :=
  if is_absolute q then q else MkPath (is_absolute p) (parts p ++ parts q).

(** *** The file system *)

Inductive node (C : Type) :=
  | Dir
  | File (content : C).
Arguments Dir {C}.
Arguments File {C} content.

(** The world: the files (content [C] is what [pickle] stores) and the trace
    of callback invocations (events [E]).  The root and the working directory
    are the paths without components; they always exist.  An entry is known
    by the components of its path as they are written: [..] is a component
    like any other and is not resolved against its parent, a relative and an
    absolute path never name the same entry, and there are no symbolic
    links.  Statements that compare entries say so where it matters. *)
Record world (C E : Type) := MkWorld {
  files : gmap Path (node C);
  trace : list E
}.
Arguments MkWorld {C E} files trace.
Arguments files {C E} w.
Arguments trace {C E} w.

Section filesystem.
Context {C E : Type}.
Implicit Types (p : Path) (w : world C E).

Definition set_files (f : gmap Path (node C) → gmap Path (node C)) w : world C E :=
  MkWorld (f (files w)) (trace w).

Definition record_event (e : E) : M (world C E) () :=
  modify (λ w, MkWorld (files w) (trace w ++ [e])).

Definition lookup_path p w : option (node C) :=
  match parts p with
  | [] => Some Dir
  | _ => files w !! p
  end.

(** [p.exists()] and [p.is_dir()] *)
Definition path_exists p : M (world C E) bool :=
  gets (λ w, bool_decide (is_Some (lookup_path p w))).

Definition path_is_dir p : M (world C E) bool :=
  gets (λ w, match lookup_path p w with Some Dir => true | _ => false end).

(** The ancestors of [p] below the anchor, nearest the anchor first, [p] last. *)
Definition lineage p : list Path :=
  map (λ n : nat, MkPath (is_absolute p) (take (S n) (parts p))) (seq 0 (length (parts p))).

(** [q] lies strictly below [p]. *)
Definition below p (q : Path) : bool :=
  bool_decide (is_absolute q = is_absolute p) &&
  bool_decide (parts p `prefix_of` parts q) &&
  bool_decide (parts q ≠ parts p).

Definition has_entries p w : bool :=
  bool_decide (Exists (λ q, below p q = true) (elements (dom (files w)))).

Definition is_file p w : bool :=
  match lookup_path p w with Some (File _) => true | _ => false end.

(** [q] becomes a directory unless something is there already. *)
Definition mkdir_step (q : Path) (f : gmap Path (node C)) : gmap Path (node C) :=
  match f !! q with
  | None => <[q := Dir]> f
  | Some _ => f
  end.

(** [p.mkdir(parents=True, exist_ok=True)]: fails, creating nothing, when [p]
    or an ancestor is a file; otherwise creates what is missing. *)
Definition mkdir_parents p : M (world C E) () := λ w,
  if bool_decide (Exists (λ q, is_file q w = true) (lineage p)) then
    (w, inl (if is_file p w then FileExistsError else NotADirectoryError))
  else
    (set_files (λ f, foldr mkdir_step f (lineage p)) w, inr ()).

(** [p.rmdir()]: only an empty directory can be removed. *)
Definition rmdir p : M (world C E) () := λ w,
  match parts p with
  | [] => (w, inl InvalidArgument)
  | _ =>
    match files w !! p with
    | None => (w, inl FileNotFoundError)
    | Some (File _) => (w, inl NotADirectoryError)
    | Some Dir =>
        if has_entries p w then (w, inl DirectoryNotEmpty)
        else (set_files (delete p) w, inr ())
    end
  end.

Definition parent p : Path := MkPath (is_absolute p) (removelast (parts p)).

(** [with open(p, "wb") as out: pickle.dump(c, out)], for an object that
    [pickle] can store: [open] raises or the file ends up holding [c].  A
    [pickle.dump] that raises after [open] has emptied the file is not
    represented, and the write is one step: no reader sees half a file. *)
Definition write_pickle p (c : C) : M (world C E) () := λ w,
  match lookup_path (parent p) w with
  | None => (w, inl FileNotFoundError)
  | Some (File _) => (w, inl NotADirectoryError)
  | Some Dir =>
      match lookup_path p w with
      | Some Dir => (w, inl IsADirectoryError)
      | _ => (set_files (<[p := File c]>) w, inr ())
      end
  end.

(** [with open(p, "rb") as inp: pickle.load(inp)] *)
Definition read_pickle p : M (world C E) C := λ w,
  match lookup_path p w with
  | None => (w, inl FileNotFoundError)
  | Some Dir => (w, inl IsADirectoryError)
  | Some (File c) => (w, inr c)
  end.

End filesystem.

End Python.

(** ** [tradeexecutor/backtest/grid_search.py] *)

Module GridSearch.
Import Python.

(** Pure code that may raise. *)
#[global] Instance exn_ret : MRet (sum pyexn) := λ A a, inr a.
#[global] Instance exn_bind : MBind (sum pyexn) := λ A B f r,
  match r with
  | inl e => inl e
  | inr a => f a
  end.

(** [itertools.product]: the rightmost list advances fastest. *)
Fixpoint product {A} (ls : list (list A)) : list (list A) :=
  match ls with
  | [] => [[]]
  | l :: ls => x ← l; (λ t, x :: t) <$> product ls
  end.

(** [s == t] on tuples: same length and equal items.  (The shortcut CPython
    takes for identical items only matters for items that are not equal to
    themselves.) *)
Fixpoint tuple_eq {A} (eq : A → A → bool) (s t : list A) : bool :=
  match s, t with
  | [], [] => true
  | x :: s, y :: t => eq x y && tuple_eq eq s t
  | _, _ => false
  end.

Section grid_search.
Context {V : Type} `{!PyObject V} `{!PyHashing}.
(** The backtest state, the trade summary, the metrics table and the trading
    universe are opaque to the grid search. *)
Context {State TradeSummary Metrics Universe : Type}.

Record GridParameter := MkGridParameter { name : string; value : V }.

Definition GridParameter_hash (self : GridParameter) : pyexn + Z :=
  h ← py_hash (value self);
  mret (hash_tuple [hash_str (name self); h]).

Definition GridParameter_eq (self other : GridParameter) : bool :=
  String.eqb (name self) (name other) && py_eq (value self) (value other).

Definition to_path (self : GridParameter) : pyexn + string :=
  if bool_decide (py_type (value self) ∈ [TFloat; TInt; TStr])
  then inr (name self +:+ "=" +:+ py_str (value self))
  else inl NotImplementedError.

Record GridCombination := MkGridCombination {
  result_path : Path;
  parameters : list GridParameter
}.

Definition GridCombination_hash (self : GridCombination) : pyexn + Z :=
  hs ← mapM GridParameter_hash (parameters self);
  mret (hash_tuple hs).

Definition GridCombination_eq (self other : GridCombination) : bool :=
  tuple_eq GridParameter_eq (parameters self) (parameters other).

Definition get_relative_result_path (self : GridCombination) : pyexn + Path :=
  path_parts ← mapM to_path (parameters self);
  joined ← os_path_join path_parts;
  mret (parse_path joined).

Definition get_full_result_path (self : GridCombination) : pyexn + Path :=
  rel ← get_relative_result_path self;
  mret (joinpath (result_path self) rel).

Definition validate (self : GridCombination) : pyexn + () :=
  _ ← get_relative_result_path self;
  mret ().

(** The dict comprehension inserts the parameters in order, a later one
    replacing an earlier one of the same name.  The dict is used as a keyword
    mapping: the order of its keys is not represented. *)
Definition as_dict (self : GridCombination) : gmap string V :=
  foldl (λ d p, <[name p := value p]> d) ∅ (parameters self).

Definition get_label (self : GridCombination) : string :=
  String.concat ", " ((λ p, name p +:+ ": " +:+ py_str (value p)) <$> parameters self).

Definition destructure (self : GridCombination) : list V :=
  value <$> parameters self.

Record GridSearchResult := MkGridSearchResult {
  combination : GridCombination;
  state : State;
  summary : TradeSummary;
  metrics : Metrics;
  cached : bool
}.

Definition set_cached (b : bool) (r : GridSearchResult) : GridSearchResult :=
  MkGridSearchResult (combination r) (state r) (summary r) (metrics r) b.

(** The world of a grid search: result pickles on disk, and the combinations
    the worker has been invoked on, oldest first. *)
#[local] Abbreviation World := (world GridSearchResult GridCombination).
#[local] Abbreviation Files := (gmap Path (node GridSearchResult)).

(** [GridCombination(parameters=..., result_path=...)] with its
    [__post_init__]. *)
Definition new_GridCombination (parameters : list GridParameter) (result_path : Path)
    : M World GridCombination :=
  assert (bool_decide (0 < length parameters)%nat);;
  ex ← path_exists result_path;
  ok ← (if ex : bool then path_is_dir result_path else mret false);
  assert ok;;
  mret (MkGridCombination result_path parameters).

Definition result_pickle : Path := parse_path "result.pickle".

Definition has_result (combination : GridCombination) : M World bool :=
  let base_path := result_path combination in
  full ← lift (get_full_result_path combination);
  path_exists (joinpath (joinpath base_path full) result_pickle).

Definition load (combination : GridCombination) : M World GridSearchResult :=
  base_path ← lift (get_full_result_path combination);
  result ← read_pickle (joinpath base_path result_pickle);
  mret (set_cached true result).

Definition save (self : GridSearchResult) : M World () :=
  base_path ← lift (get_full_result_path (combination self));
  mkdir_parents base_path;;
  write_pickle (joinpath base_path result_pickle) self.

(** A worker runs one backtest.  It may touch the files and may raise. *)
Definition GridSearchWorker : Type :=
  Universe → GridCombination → Files → Files * (pyexn + GridSearchResult).

Definition on_files {A} (f : Files → Files * (pyexn + A)) : M World A :=
  λ w, let '(f', r) := f (files w) in (MkWorld f' (trace w), r).

Definition call_worker (grid_search_worker : GridSearchWorker) (universe : Universe)
    (combination : GridCombination) : M World GridSearchResult :=
  record_event combination;;
  on_files (grid_search_worker universe combination).

(** The dict comprehension and the lookups of [sort_by_order]. *)
Definition sort_by_order (order : list string) (combination : list GridParameter)
    : pyexn + list GridParameter :=
  let temp : gmap string GridParameter :=
    foldl (λ m p, <[name p := p]> m) ∅ combination in
  mapM (λ o, match temp !! o with Some p => inr p | None => inl KeyError end) order.

(** The parameter grid is a [dict]: its items in insertion order. *)
Definition prepare_grid_combinations (parameters : list (string * list V))
    (result_path : Path) (clear_cached_results : bool) : M World (list GridCombination) :=
  (if clear_cached_results then
     ex ← path_exists result_path;
     if ex : bool then rmdir result_path else mret ()
   else mret ());;
  mkdir_parents result_path;;
  let args_lists : list (list GridParameter) :=
    (λ item : string * list V, MkGridParameter item.1 <$> item.2) <$> parameters in
  let combinations := product args_lists in
  let order : list string := parameters.*1 in
  combinations ← mapM (λ c, ps ← lift (sort_by_order order c);
                            new_GridCombination ps result_path) combinations;
  mapM (λ c, lift (validate c)) combinations;;
  mret combinations.

Definition run_grid_combination (grid_search_worker : GridSearchWorker)
    (universe : Universe) (combination : GridCombination) : M World GridSearchResult :=
  found ← has_result combination;
  if found : bool then load combination
  else
    result ← call_worker grid_search_worker universe combination;
    save result;;
    mret result.

(** *** The thread pool

    With [max_workers > 1] the tasks go through futureproof's [TaskManager]
    ([tm.map], then [tm.as_completed()]) under the RAISE error policy: at most
    [max_workers] tasks are in the hands of the threads at a time, in the
    order they were submitted; the threads interleave; each time a task
    completes its result is collected and the next task is handed over; when
    a task completes with an exception no further task is handed over and
    the exception is raised as it is; the tasks already in the hands of the
    threads run on to their end, and the world of a run is the one they
    leave behind. *)

(** Where a task stands in [run_grid_combination].  The steps a thread takes
    one at a time are the cache check, the load, the invocation of the worker,
    the worker's return, the [mkdir] of [save] and the write of [save]. *)
Inductive stage :=
  | Queued
  | Checked (found : bool)
  | Invoked
  | Computed (result : GridSearchResult)
  | Saving (result : GridSearchResult) (base_path : Path)
  | Finished (outcome : pyexn + GridSearchResult).

Definition is_finished (s : stage) : bool :=
  match s with Finished _ => true | _ => false end.

(** The next step of [run_grid_combination] on the combination [c], in its
    thread. *)
Definition task_step (grid_search_worker : GridSearchWorker) (universe : Universe)
    (c : GridCombination) (s : stage) (w : World) : World * stage :=
  match s with
  | Queued =>
      match has_result c w with
      | (w', inl e) => (w', Finished (inl e))
      | (w', inr found) => (w', Checked found)
      end
  | Checked true =>
      let '(w', outcome) := load c w in (w', Finished outcome)
  | Checked false =>
      let '(w', _) := record_event c w in (w', Invoked)
  | Invoked =>
      match on_files (grid_search_worker universe c) w with
      | (w', inl e) => (w', Finished (inl e))
      | (w', inr result) => (w', Computed result)
      end
  | Computed result =>
      match (base_path ← lift (get_full_result_path (combination result));
             mkdir_parents base_path;; mret base_path) w with
      | (w', inl e) => (w', Finished (inl e))
      | (w', inr base_path) => (w', Saving result base_path)
      end
  | Saving result base_path =>
      match write_pickle (joinpath base_path result_pickle) result w with
      | (w', inl e) => (w', Finished (inl e))
      | (w', inr _) => (w', Finished (inr result))
      end
  | Finished outcome => (w, Finished outcome)
  end.

(** The task manager: the stage of every task, the results collected so far
    in the order of completion, and the exception of the first task seen to
    fail. *)
Record pool := MkPool {
  stages : list stage;
  completed : list GridSearchResult;
  failure : option pyexn
}.

(** What the task manager does with a task that has just taken a step. *)
Definition collect (s : stage) (p : pool) : pool :=
  match failure p, s with
  | None, Finished (inr result) => MkPool (stages p) (completed p ++ [result]) None
  | None, Finished (inl e) => MkPool (stages p) (completed p) (Some e)
  | _, _ => p
  end.

(** The thread of task [i] takes a step, if the task has been handed over
    and has not finished.  [max_workers] tasks are handed over at the start
    and one more with every result collected. *)
Definition pool_tick (grid_search_worker : GridSearchWorker) (universe : Universe)
    (combinations : list GridCombination) (max_workers : nat) (i : nat)
    (pw : pool * World) : pool * World :=
  match combinations !! i, stages pw.1 !! i with
  | Some c, Some s =>
      if bool_decide (i < max_workers + length (completed pw.1))%nat && negb (is_finished s)
      then
        let '(w', s') := task_step grid_search_worker universe c s pw.2 in
        (collect s' (MkPool (<[i := s']> (stages pw.1)) (completed pw.1) (failure pw.1)), w')
      else pw
  | _, _ => pw
  end.

(** Once the schedule is used up every task still in the hands of a thread
    is run to its end: a task takes at most five steps. *)
Definition drain (tasks : nat) : list nat := i ← seq 0 tasks; replicate 5 i.

(** A run of the pool.  The [schedule] is the order in which the threads
    take their steps, each entry naming the task that moves; an entry that
    names a task that cannot move is passed over.  Every interleaving of the
    threads is the run of some schedule. *)
Definition pool_run (grid_search_worker : GridSearchWorker) (universe : Universe)
    (combinations : list GridCombination) (max_workers : nat) (schedule : list nat)
    (w : World) : pool * World :=
  foldl (λ pw i, pool_tick grid_search_worker universe combinations max_workers i pw)
        (MkPool (replicate (length combinations) Queued) [] None, w)
        (schedule ++ drain (length combinations)).

(** [[task.result for task in tm.as_completed()]] *)
Definition as_completed (grid_search_worker : GridSearchWorker) (universe : Universe)
    (combinations : list GridCombination) (max_workers : nat) (schedule : list nat)
    : M World (list GridSearchResult) := λ w,
  let '(p, w') := pool_run grid_search_worker universe combinations max_workers schedule w in
  (w', match failure p with
       | Some e => inl e
       | None => inr (completed p)
       end).

(** [perform_grid_search].  The [schedule] is that of the thread pool; the
    single-thread branch does not use it.  The arguments
    [clear_cached_results] and [stats] are not used by the function. *)
Definition perform_grid_search (schedule : list nat)
    (grid_search_worker : GridSearchWorker) (universe : Universe)
    (combinations : list GridCombination) (max_workers : Z)
    : M World (list GridSearchResult) :=
  let task_args := combinations in
  if bool_decide (max_workers > 1)%Z then
    as_completed grid_search_worker universe task_args (Z.to_nat max_workers) schedule
  else
    mapM (run_grid_combination grid_search_worker universe) task_args.

(** *** The steps of the functions above, named for the statements below *)

(** The first statements of [prepare_grid_combinations]: the result
    directory is cleared on request and then created. *)
Definition clear_result_path (result_path : Path) (clear_cached_results : bool)
    : M World () :=
  if clear_cached_results then
    ex ← path_exists result_path;
    if ex : bool then rmdir result_path else mret ()
  else mret ().

Definition prepare_result_path (result_path : Path) (clear_cached_results : bool)
    : M World () :=
  clear_result_path result_path clear_cached_results;;
  mkdir_parents result_path.

(** The rest of it: the combinations are built, then validated. *)
Definition build_combinations (parameters : list (string * list V)) (result_path : Path)
    : M World (list GridCombination) :=
  let args_lists : list (list GridParameter) :=
    (λ item : string * list V, MkGridParameter item.1 <$> item.2) <$> parameters in
  combinations ← mapM (λ c, ps ← lift (sort_by_order parameters.*1 c);
                            new_GridCombination ps result_path) (product args_lists);
  mapM (λ c, lift (validate c)) combinations;;
  mret combinations.

(** The value types a path can be rendered from. *)
Definition supported (v : V) : Prop := py_type v ∈ [TFloat; TInt; TStr].

#[global] Instance supported_dec v : Decision (supported v).
Proof. unfold supported. apply _. Defined.

(** The text [to_path] gives for a value of supported type. *)
Definition rendered (p : GridParameter) : string :=
  name p +:+ "=" +:+ py_str (value p).

(** The lists of parameters [itertools.product] is applied to. *)
Definition args_lists (grid : list (string * list V)) : list (list GridParameter) :=
  (λ item : string * list V, MkGridParameter item.1 <$> item.2) <$> grid.

(** The result a task has returned, if it has. *)
Definition result_of (s : stage) : option GridSearchResult :=
  match s with Finished (inr result) => Some result | _ => None end.

(** What holds of the task manager all along a run of the pool: while no
    task has failed, the results collected are those of the finished tasks
    and no task has ended with an exception; the exception recorded is that
    of a task. *)
Definition pool_ok (combinations : list GridCombination) (p : pool) : Prop :=
  length (stages p) = length combinations ∧
  (failure p = None →
     completed p ≡ₚ omap result_of (stages p) ∧
     Forall (λ s, ∀ e, s ≠ Finished (inl e)) (stages p)) ∧
  (∀ e, failure p = Some e → ∃ i, stages p !! i = Some (Finished (inl e))).

(** The steps a task has left at most. *)
Definition steps_left (s : stage) : nat :=
  match s with
  | Queued => 5 | Checked _ => 4 | Invoked => 3 | Computed _ => 2 | Saving _ _ => 1
  | Finished _ => 0
  end.

End grid_search.

Arguments GridParameter V : clear implicits.
Arguments GridCombination V : clear implicits.
Arguments GridSearchResult V State TradeSummary Metrics : clear implicits.
Arguments GridSearchWorker V State TradeSummary Metrics Universe : clear implicits.
Arguments stage V State TradeSummary Metrics : clear implicits.
Arguments pool V State TradeSummary Metrics : clear implicits.

End GridSearch.

(** ** The indicator layer ([tradeexecutor.strategy.pandas_trader.indicator])

    The module itself is not part of the sources at hand; its tests are.  The
    definitions below follow the specification's description of it and the
    names and paths the tests use. *)

Module Indicator.
Import Python GridSearch.

(** Modelled from the spec: section 4.1 has [render_path_fragment] escape or
    reject the characters that are unsafe for a file-system path; it names
    neither the characters nor the escape.  Both are left open: [unsafe]
    tells the unsafe characters, and [escape] gives the text that replaces
    an unsafe character, or rejects the character. *)
Class PathSafety := {
  unsafe : ascii → bool;
  escape : ascii → pyexn + string
}.

(** Does [s] hold an unsafe character. *)
Fixpoint has_unsafe `{PathSafety} (s : string) : bool :=
  match s with
  | EmptyString => false
  | String c r => unsafe c || has_unsafe r
  end.

(** Modelled from the spec: the least that "unsafe for a file-system path"
    and "escape" say: the path separator is unsafe, and the text that
    replaces a character holds no unsafe character. *)
Class PathSafetyOk `{PathSafety} : Prop := {
  unsafe_sep : unsafe sep = true;
  escape_safe : ∀ c t, escape c = inr t → has_unsafe t = false
}.

(** Modelled from the spec: a text with every unsafe character escaped, or
    rejected for the first unsafe character that is. *)
Fixpoint escape_unsafe `{PathSafety} (s : string) : pyexn + string :=
  match s with
  | EmptyString => inr EmptyString
  | String c r =>
      h ← (if unsafe c then escape c else inr (String c EmptyString));
      t ← escape_unsafe r;
      mret (h +:+ t)
  end.

Section indicator.
Context {V : Type} `{!PyObject V} `{!PathSafety}.

(** The candle data of a pair, the computed output (a series or a table,
    compared bit for bit) and the strategy parameters are opaque. *)
Context {Candles Data StrategyParameters : Type}.

(** Modelled from the spec: the identifiers of assets and trading pairs
    ([tradeexecutor.state.identifier]), missing from the sources, with the
    fields the tests construct them from; the tickers are what the artifact
    name uses. *)
Record AssetIdentifier := MkAsset {
  chain_id : Z;
  address : string;
  token_symbol : string;
  decimals : Z
}.

Record TradingPairIdentifier := MkPair {
  base : AssetIdentifier;
  quote : AssetIdentifier;
  pool_address : string;
  exchange_address : string;
  internal_id : Z
}.

(** Modelled from the spec: the function reference of an indicator, which is
    missing from the sources: the keyword arguments its signature accepts and
    the pure transform from candle data and parameters to the output. *)
Record IndicatorFunction := MkIndicatorFunction {
  signature : list string;
  call : Candles → list (string * V) → Data
}.

(** Modelled from the spec: [IndicatorDefinition], missing from the sources:
    name, function reference and the parameter mapping in insertion order. *)
Record IndicatorDefinition := MkIndicatorDefinition {
  name : string;
  func : IndicatorFunction;
  parameters : list (string * V)
}.

(** Modelled from the spec: the construction of an [IndicatorDefinition]
    (section 4.1, [define]), missing from the sources: the keys of
    [parameters] are checked against the keyword arguments the function
    accepts; any key that is not accepted fails the construction with a
    signature mismatch naming the offending keys. *)
Definition define (name : string) (func : IndicatorFunction)
    (parameters : list (string * V)) : pyexn + IndicatorDefinition :=
  match filter (λ k, k ∉ signature func) parameters.*1 with
  | [] => inr (MkIndicatorDefinition name func parameters)
  | offending => inl (IndicatorFunctionSignatureMismatch offending)
  end.

(** Modelled from the spec: [render_path_fragment] (section 4.1), missing
    from the sources: [name(k=v,...)] with the parameters in insertion order,
    the characters unsafe for a file-system path escaped or rejected. *)
Definition render_path_fragment (self : IndicatorDefinition) : pyexn + string :=
  escape_unsafe
    (name self +:+ "(" +:+
     String.concat "," ((λ kv : string * V, kv.1 +:+ "=" +:+ py_str kv.2) <$> parameters self)
     +:+ ")").

(** Modelled from the spec: [IndicatorStorage], missing from the sources: a
    root directory and the key that fingerprints the trading universe. *)
Record IndicatorStorage := MkIndicatorStorage {
  path : Path;
  universe_key : string
}.

(** Modelled from the spec: the artifact path of section 4.2, missing from
    the sources; the tests call it [get_indicator_path] and fix the
    extension: [<root>/<universe_key>/<fragment>-<BASE>-<QUOTE>.parquet]. *)
Definition get_indicator_path (self : IndicatorStorage) (ind : IndicatorDefinition)
    (pair : TradingPairIdentifier) : pyexn + Path :=
  fragment ← render_path_fragment ind;
  mret (joinpath (joinpath (path self) (parse_path (universe_key self)))
          (parse_path (fragment +:+ "-" +:+ token_symbol (base pair)
                       +:+ "-" +:+ token_symbol (quote pair) +:+ ".parquet"))).

(** Modelled from the spec: [IndicatorKey] and [IndicatorResult] (section 3),
    missing from the sources: a pair with a definition, and the output with
    the flag telling whether it was loaded from the cache. *)
Definition IndicatorKey : Type := TradingPairIdentifier * IndicatorDefinition.

Record IndicatorResult := MkIndicatorResult {
  data : Data;
  cached : bool
}.

(** The cache directory: one stored output per artifact. *)
#[local] Abbreviation World := (world Data ()).

(** Modelled from the spec: [has], [load] and [save] of section 4.2, missing
    from the sources: an existence check on the artifact path, reading the
    artifact back, and writing it after creating the parent directories. *)
Definition has (self : IndicatorStorage) (key : IndicatorKey) : M World bool :=
  p ← lift (get_indicator_path self key.2 key.1);
  path_exists p.

Definition load (self : IndicatorStorage) (key : IndicatorKey) : M World Data :=
  p ← lift (get_indicator_path self key.2 key.1);
  read_pickle p.

Definition save (self : IndicatorStorage) (key : IndicatorKey) (d : Data) : M World () :=
  p ← lift (get_indicator_path self key.2 key.1);
  mkdir_parents (parent p);;
  write_pickle p d.

(** Modelled from the spec: [IndicatorSet] (section 4.3), missing from the
    sources: a mapping from name to definition in registration order; a
    duplicate name overwrites the earlier registration. *)
Definition IndicatorSet : Type := list (string * IndicatorDefinition).

(** Modelled from the spec: the assignment [indicators[name] = d] behind
    [IndicatorSet.add]: the last registration of a name wins. *)
Fixpoint register (name : string) (d : IndicatorDefinition) (s : IndicatorSet) : IndicatorSet :=
  match s with
  | [] => [(name, d)]
  | (n, d') :: s => if bool_decide (n = name) then (n, d) :: s else (n, d') :: register name d s
  end.

(** Modelled from the spec: [IndicatorSet.add], missing from the sources (the
    tests call it): the definition is constructed, then registered. *)
Definition add (name : string) (func : IndicatorFunction) (parameters : list (string * V))
    : M IndicatorSet () :=
  d ← lift (define name func parameters);
  modify (register name d).

(** Modelled from the spec: the trading universe as the indicator layer sees
    it (section 6): its pairs, their candle data and its cache key. *)
Record TradingStrategyUniverse := MkUniverse {
  pairs : list TradingPairIdentifier;
  candles : TradingPairIdentifier → Candles;
  get_cache_key : string
}.

(** Modelled from the spec: the [create_indicators] callback (section 4.3),
    which fills the indicator set from the strategy parameters. *)
Definition CreateIndicators : Type :=
  StrategyParameters → TradingStrategyUniverse → M IndicatorSet ().

(** Modelled from the spec: steps 1 and 2 of
    [calculate_and_load_indicators]: the indicator set, then every pair with
    every indicator. *)
Definition indicator_keys (universe : TradingStrategyUniverse)
    (create_indicators : CreateIndicators) (parameters : StrategyParameters)
    : pyexn + list IndicatorKey :=
  match create_indicators parameters universe [] with
  | (_, inl e) => inl e
  | (indicators, inr _) => inr (p ← pairs universe; d ← indicators.*2; [(p, d)])
  end.

(** Modelled from the spec: step 3 for one key: is it cached, and if so what
    does the cache hold. *)
Definition probe (storage : IndicatorStorage) (key : IndicatorKey) : M World (option Data) :=
  found ← has storage key;
  if found : bool then d ← load storage key; mret (Some d) else mret None.

(** Modelled from the spec: steps 4 to 6 for one key: a cached output is
    returned as loaded; the others are computed from the pair's candles,
    saved, and returned. *)
Definition settle (universe : TradingStrategyUniverse) (storage : IndicatorStorage)
    (entry : IndicatorKey * option Data) : M World (IndicatorKey * IndicatorResult) :=
  match entry.2 with
  | Some d => mret (entry.1, MkIndicatorResult d true)
  | None =>
      let ind := entry.1.2 in
      let d := call (func ind) (candles universe entry.1.1) (parameters ind) in
      save storage entry.1 d;;
      mret (entry.1, MkIndicatorResult d false)
  end.

(** Modelled from the spec: [calculate_and_load_indicators] (section 4.3,
    steps 1 to 6), missing from the sources.  The keys are partitioned into
    cached and to be computed before any computation starts; every computed
    output is saved before it is returned.  Readers and workers handle
    disjoint keys; they are run here one key after the other, so
    [max_readers] and [max_workers] do not appear. *)
Definition calculate_and_load_indicators (universe : TradingStrategyUniverse)
    (storage : IndicatorStorage) (create_indicators : CreateIndicators)
    (parameters : StrategyParameters) : M World (list (IndicatorKey * IndicatorResult)) :=
  keys ← lift (indicator_keys universe create_indicators parameters);
  found ← mapM (probe storage) keys;
  mapM (settle universe storage) (zip keys found).

(** *** Names for the statements below *)

(** The claim's wording of the fragment: the pairs [k=v], in the order of
    the mapping, with commas in between. *)
Fixpoint pairs_text (params : list (string * V)) : string :=
  match params with
  | [] => ""
  | [(k, v)] => k +:+ "=" +:+ py_str v
  | (k, v) :: rest => k +:+ "=" +:+ py_str v +:+ "," +:+ pairs_text rest
  end.

(** The claim's wording of the fragment: the name, then the pairs in
    brackets. *)
Definition fragment_text (ind : IndicatorDefinition) : string :=
  name ind +:+ "(" +:+ pairs_text (parameters ind) +:+ ")".

(** The file name of the artifact of a rendered fragment and a pair. *)
Definition artifact_name (fragment : string) (pair : TradingPairIdentifier) : string :=
  fragment +:+ "-" +:+ token_symbol (base pair)
  +:+ "-" +:+ token_symbol (quote pair) +:+ ".parquet".

(** The artifact path of a key. *)
Definition key_path (storage : IndicatorStorage) (key : IndicatorKey) : pyexn + Path :=
  get_indicator_path storage key.2 key.1.

(** The artifact at [p] holds the output [d]. *)
Definition stored (w : World) (p : Path) (d : Data) : Prop :=
  lookup_path p w = Some (File d).

(** The artifact of [key] holds the output [d]. *)
Definition key_stored (storage : IndicatorStorage) (w : World) (key : IndicatorKey)
    (d : Data) : Prop :=
  ∃ p, key_path storage key = inr p ∧ stored w p d.

End indicator.

Arguments IndicatorFunction V Candles Data : clear implicits.
Arguments IndicatorDefinition V Candles Data : clear implicits.
Arguments IndicatorResult Data : clear implicits.
Arguments IndicatorSet V Candles Data : clear implicits.
Arguments TradingStrategyUniverse Candles : clear implicits.
Arguments IndicatorKey V Candles Data : clear implicits.
Arguments CreateIndicators V Candles Data StrategyParameters : clear implicits.

End Indicator.

(** ** Scenarios

    Concrete inputs the examples below are run on, over the example values
    and the deterministic hashes. *)

(** *** Grid search: the backtest state is a number, so that results can be
    told apart; the summary, the metrics and the universe carry nothing. *)

Module GridScenarios.
Import Python GridSearch.

#[export] Existing Instance cpython_hashing.

Abbreviation XResult := (GridSearchResult pyval Z () ()).
Abbreviation XWorld := (world XResult (GridCombination pyval)).
Abbreviation XWorker := (GridSearchWorker pyval Z () () ()).

Definition on_disk (entries : list (Path * node XResult)) : XWorld :=
  MkWorld (list_to_map entries) [].

Definition empty_world : XWorld := on_disk [].

Definition tmp_results : Path := MkPath true ["tmp"; "results"].

(** The file system once [/tmp/results] has been created. *)
Definition world_with_root : XWorld :=
  on_disk [(MkPath true ["tmp"], Dir); (tmp_results, Dir)].

Definition combination_a (root : Path) (v : pyval) : GridCombination pyval :=
  MkGridCombination root [MkGridParameter "a" v].

(** Two combinations that differ in their result path and in how the value
    is written, yet are equal. *)
Definition c7_left : GridCombination pyval :=
  MkGridCombination (MkPath true ["tmp"; "one"]) [MkGridParameter "flag" (VInt 1)].
Definition c7_right : GridCombination pyval :=
  MkGridCombination (MkPath true ["tmp"; "two"]) [MkGridParameter "flag" (VBool true)].

(** The grid of the specification's example. *)
Definition grid_ab : list (string * list pyval) :=
  [("a", [VInt 1; VInt 2]); ("b", [VInt 10; VInt 20])].

(** The int [1] and the str ["1"] are different values with the same path. *)
Definition grid_collide : list (string * list pyval) := [("a", [VInt 1; VStr "1"])].

(** A result of an earlier run, and the result a fresh backtest gives. *)
Definition old_result (c : GridCombination pyval) : XResult :=
  MkGridSearchResult c 1%Z () () false.
Definition fresh_result (c : GridCombination pyval) : XResult :=
  MkGridSearchResult c 2%Z () () false.

Definition fresh_worker : XWorker := λ _ c f, (f, inr (fresh_result c)).

(** [/tmp/results] with the cached result of the combination [a=1]. *)
Definition world_cached : XWorld :=
  on_disk [(MkPath true ["tmp"], Dir); (tmp_results, Dir);
           (MkPath true ["tmp"; "results"; "a=1"], Dir);
           (MkPath true ["tmp"; "results"; "a=1"; "result.pickle"],
            File (old_result (combination_a tmp_results (VInt 1))))].

(** The same cache under the relative result path [results]. *)
Definition results : Path := MkPath false ["results"].

Definition world_relative : XWorld :=
  on_disk [(results, Dir);
           (MkPath false ["results"; "a=1"], Dir);
           (MkPath false ["results"; "a=1"; "result.pickle"],
            File (old_result (combination_a results (VInt 1))))].

(** A worker that fails on [a=2], and one that fails on everything. *)
Definition picky_worker : XWorker := λ _ c f,
  if GridCombination_eq c (combination_a tmp_results (VInt 2))
  then (f, inl (Raised "division by zero"))
  else (f, inr (fresh_result c)).

Definition failing_worker : XWorker := λ _ _ f, (f, inl (Raised "division by zero")).

Definition three_combinations : list (GridCombination pyval) :=
  combination_a tmp_results <$> [VInt 1; VInt 2; VInt 3].

End GridScenarios.

(** *** Indicators: candles are a price level, outputs are lists of numbers,
    and the strategy parameters are the three lengths of the test's
    [MyParameters]. *)

Module IndicatorScenarios.
Import Python GridSearch Indicator.

#[export] Existing Instance cpython_hashing.

Abbreviation XDefinition := (IndicatorDefinition pyval Z (list Z)).
Abbreviation XKey := (IndicatorKey pyval Z (list Z)).
Abbreviation XCache := (world (list Z) ()).

(** A moving average in the shape of [pandas_ta.sma]: what it computes here
    is the price level and the integer parameters it was given. *)
Definition sma : IndicatorFunction pyval Z (list Z) :=
  MkIndicatorFunction ["close"; "length"; "talib"; "offset"]
    (λ close params, close :: omap (λ kv, match kv.2 with VInt n => Some n | _ => None end) params).

Definition rsi : IndicatorFunction pyval Z (list Z) :=
  MkIndicatorFunction ["close"; "length"; "scalar"; "talib"; "drift"; "offset"]
    (λ close params, [close; 50%Z]).

(** The path separator and the NUL character are unsafe, and rejected. *)
#[export] Instance reject_unsafe : PathSafety := {|
  unsafe c := bool_decide (c = sep) || bool_decide (c = "000"%char);
  escape c := inl (Raised "unsafe character")
|}.

Definition usdc : AssetIdentifier := MkAsset 1 "0xa0b8" "USDC" 6.
Definition weth : AssetIdentifier := MkAsset 1 "0xc02a" "WETH" 18.
Definition wbtc : AssetIdentifier := MkAsset 1 "0x2260" "WBTC" 18.

Definition weth_usdc : TradingPairIdentifier := MkPair weth usdc "0xb4e1" "0x5c69" 1.
Definition wbtc_usdc : TradingPairIdentifier := MkPair wbtc usdc "0x004e" "0x5c69" 2.

Definition test_storage : IndicatorStorage :=
  MkIndicatorStorage (MkPath true ["tmp"; "pytest"])
    "ethereum,1d,WETH-USDC-WBTC-USDC,2021-06-01-2021-12-31".

Definition sma_21_1 : XDefinition :=
  MkIndicatorDefinition "sma" sma [("length", VInt 21); ("offset", VInt 1)].

(** The universe and the indicators of the single-thread test. *)
Definition test_universe : TradingStrategyUniverse Z :=
  MkUniverse [weth_usdc; wbtc_usdc]
    (λ pair, if bool_decide (internal_id pair = 1%Z) then 3000%Z else 50000%Z)
    "ethereum,1d,WETH-USDC-WBTC-USDC,2021-06-01-2021-12-31".

Definition create_indicators : CreateIndicators pyval Z (list Z) (Z * Z * Z) :=
  λ parameters _,
    add "rsi" rsi [("length", VInt parameters.1.1)];;
    add "sma_long" sma [("length", VInt parameters.1.2)];;
    add "sma_short" sma [("length", VInt parameters.2)].

Definition my_parameters : Z * Z * Z := (20, 200, 12)%Z.

Definition empty_cache : XCache := MkWorld ∅ [].

(** What a call returned, without the keys: the data and the cached flag. *)
Definition outputs (r : pyexn + list (XKey * IndicatorResult (list Z)))
    : pyexn + list (list Z * bool) :=
  match r with
  | inl e => inl e
  | inr rs => inr ((λ kr, (data kr.2, cached kr.2)) <$> rs)
  end.

(** Two pools of the same two tokens: distinct pairs with one artifact path. *)
Definition weth_usdc_other_pool : TradingPairIdentifier :=
  MkPair weth usdc "0x397f" "0xc0ae" 3.

Definition twin_universe : TradingStrategyUniverse Z :=
  MkUniverse [weth_usdc; weth_usdc_other_pool]
    (λ pair, if bool_decide (internal_id pair = 1%Z) then 3000%Z else 3100%Z)
    "ethereum,1d,WETH-USDC-WETH-USDC,2021-06-01-2021-12-31".

Definition twin_storage : IndicatorStorage :=
  MkIndicatorStorage (MkPath true ["tmp"; "pytest"])
    "ethereum,1d,WETH-USDC-WETH-USDC,2021-06-01-2021-12-31".

Definition one_indicator : CreateIndicators pyval Z (list Z) (Z * Z * Z) :=
  λ parameters _, add "sma_short" sma [("length", VInt parameters.2)].

Definition sma_short_12 : XDefinition :=
  MkIndicatorDefinition "sma_short" sma [("length", VInt 12)].

(** A definition with a path separator in its name. *)
Definition sma_slash : XDefinition :=
  MkIndicatorDefinition "sma/fast" sma [("length", VInt 21)].

End IndicatorScenarios.

(** * Properties *)

(** ** The runtime model *)

Module PythonFacts.
Import Python.

(** The example values honour the hash contract, whatever the string hash. *)
#[global] Instance pyval_hashable `{PyHashing} : PyHashable pyval.
Proof.
  intros v w h k Heq Hv Hw.
  destruct v as [a|s|a| |l], w as [b|t|b| |l']; simpl in *; simplify_eq; try done.
  - by apply Z.eqb_eq in Heq as ->.
  - apply Z.eqb_eq in Heq as ->. by destruct b.
  - by apply String.eqb_eq in Heq as ->.
  - apply Z.eqb_eq in Heq as ->. by destruct a.
  - by apply Bool.eqb_prop in Heq as ->.
Qed.

Section monad.
Context {S : Type}.

Lemma bind_ok {A B} (c : M S A) (f : A → M S B) s s' a :
  c s = (s', inr a) → (c ≫= f) s = f a s'.
Proof. intros Hc. unfold mbind, M_bind. by rewrite Hc. Qed.

Lemma bind_raise {A B} (c : M S A) (f : A → M S B) s s' e :
  c s = (s', inl e) → (c ≫= f) s = (s', inl e).
Proof. intros Hc. unfold mbind, M_bind. by rewrite Hc. Qed.

Lemma bind_assoc_at {A B C} (c : M S A) (f : A → M S B) (g : B → M S C) s :
  ((c ≫= f) ≫= g) s = (c ≫= (λ a, f a ≫= g)) s.
Proof. unfold mbind, M_bind. by destruct (c s) as [s' [e|a]]. Qed.

Lemma mapM_cons {A B} (f : A → M S B) x l :
  mapM f (x :: l) = (y ← f x; k ← mapM f l; mret (y :: k)).
Proof. reflexivity. Qed.

(** A loop whose rounds all succeed without changing the state. *)
Lemma mapM_pure {A B} (f : A → M S B) (g : A → B) l s :
  Forall (λ x, f x s = (s, inr (g x))) l →
  mapM f l s = (s, inr (g <$> l)).
Proof.
  induction 1 as [|x l Hx _ IH]; [done|].
  rewrite mapM_cons, (bind_ok _ _ _ _ _ Hx), (bind_ok _ _ _ _ _ IH). done.
Qed.

(** A loop that reads only and whose rounds either succeed or raise [e]
    raises [e] as soon as one round does. *)
Lemma mapM_first_raise {A B} (f : A → M S B) (g : A → B) e l s :
  Forall (λ x, f x s = (s, inr (g x)) ∨ f x s = (s, inl e)) l →
  Exists (λ x, f x s = (s, inl e)) l →
  mapM f l s = (s, inl e).
Proof.
  induction 1 as [|x l Hx _ IH]; intros Hex; [by apply Exists_nil in Hex|].
  rewrite mapM_cons. destruct Hx as [Hx|Hx].
  - rewrite (bind_ok _ _ _ _ _ Hx). apply Exists_cons in Hex as [Hex|Hex].
    + congruence.
    + by rewrite (bind_raise _ _ _ _ _ (IH Hex)).
  - by rewrite (bind_raise _ _ _ _ _ Hx).
Qed.

(** Steps that leave the state alone, in sequence, leave the state alone. *)
Lemma bind_state {A B} (c : M S A) (f : A → M S B) s :
  (c s).1 = s → (∀ a, (f a s).1 = s) → ((c ≫= f) s).1 = s.
Proof.
  intros Hc Hf. unfold mbind, M_bind.
  destruct (c s) as [s' [e|a]]; simpl in Hc; subst s'; [done|]. apply Hf.
Qed.

(** A loop of rounds that leave the state alone leaves the state alone. *)
Lemma mapM_state {A B} (f : A → M S B) l s :
  (∀ x s, (f x s).1 = s) → (mapM f l s).1 = s.
Proof.
  intros Hf. induction l as [|x l IH]; [done|].
  rewrite mapM_cons. apply bind_state; [apply Hf|].
  intros y. by apply bind_state.
Qed.

(** A loop stops at the first round that raises: the rounds before it have
    run, the rounds after it have not. *)
Lemma mapM_abort {A B} (f : A → M S B) pre x post s s1 ys s2 e :
  mapM f pre s = (s1, inr ys) →
  f x s1 = (s2, inl e) →
  mapM f (pre ++ x :: post) s = (s2, inl e).
Proof.
  revert s ys. induction pre as [|p pre IH]; intros s ys Hpre Hx; cbn [app].
  - injection Hpre as <- _. rewrite mapM_cons. by rewrite (bind_raise _ _ _ _ _ Hx).
  - rewrite mapM_cons in Hpre |- *.
    destruct (f p s) as [s' [e'|y]] eqn:Hp.
    { by rewrite (bind_raise _ _ _ _ _ Hp) in Hpre. }
    rewrite (bind_ok _ _ _ _ _ Hp) in Hpre. rewrite (bind_ok _ _ _ _ _ Hp).
    destruct (mapM f pre s') as [s'' [e'|ys']] eqn:Hrest.
    { by rewrite (bind_raise _ _ _ _ _ Hrest) in Hpre. }
    rewrite (bind_ok _ _ _ _ _ Hrest) in Hpre. injection Hpre as -> _.
    by rewrite (bind_raise _ _ _ _ _ (IH _ _ Hrest Hx)).
Qed.

End monad.

(** Proof steps for sequenced code: [steps H] runs a first statement that, by
    [H], returns; [stops H] one that, by [H], raises. *)
Tactic Notation "steps" uconstr(H) := rewrite (bind_ok _ _ _ _ _ H).
Tactic Notation "steps" uconstr(H) "in" hyp(Hc) := rewrite (bind_ok _ _ _ _ _ H) in Hc.
Tactic Notation "stops" uconstr(H) := rewrite (bind_raise _ _ _ _ _ H).
Tactic Notation "stops" uconstr(H) "in" hyp(Hc) := rewrite (bind_raise _ _ _ _ _ H) in Hc.

Section filesystem.
Context {C E : Type}.
Implicit Types (p q : Path) (w : world C E) (f : gmap Path (node C)).

Lemma lineage_parts p q : q ∈ lineage p → parts q ≠ [].
Proof.
  unfold lineage. intros (n & -> & Hn)%list_elem_of_fmap.
  apply elem_of_seq in Hn. destruct (parts p); simpl in *; [lia|done].
Qed.

Lemma lineage_self p : parts p ≠ [] → p ∈ lineage p.
Proof.
  intros Hp. unfold lineage. apply list_elem_of_fmap.
  exists (pred (length (parts p))). split.
  - destruct p as [a ps]; simpl in *. f_equal.
    destruct ps as [|x ps]; [done|]. symmetry. apply take_ge. simpl. lia.
  - apply elem_of_seq. destruct (parts p); simpl in *; [done|lia].
Qed.

Lemma lookup_path_files p w :
  parts p ≠ [] → lookup_path p w = files w !! p.
Proof. unfold lookup_path. by destruct (parts p). Qed.

Lemma foldr_mkdir_lookup f l q :
  foldr mkdir_step f l !! q =
    match f !! q with
    | Some x => Some x
    | None => if bool_decide (q ∈ l) then Some Dir else None
    end.
Proof.
  induction l as [|a l IH]; simpl.
  - by destruct (f !! q).
  - unfold mkdir_step at 1. destruct (foldr mkdir_step f l !! a) eqn:Ha.
    + rewrite IH. destruct (f !! q) eqn:Hq; [done|].
      destruct (decide (q = a)) as [->|Hne].
      * rewrite IH in Ha. case_bool_decide; [|done].
        by rewrite bool_decide_eq_true_2 by set_solver.
      * assert (q ∈ a :: l ↔ q ∈ l) as Hiff by (rewrite elem_of_cons; tauto).
        by rewrite (bool_decide_ext _ _ Hiff).
    + destruct (decide (q = a)) as [->|Hne].
      * rewrite lookup_insert_eq. rewrite IH in Ha.
        destruct (f !! a); [done|].
        by rewrite bool_decide_eq_true_2 by set_solver.
      * rewrite lookup_insert_ne by done. rewrite IH.
        assert (q ∈ a :: l ↔ q ∈ l) as Hiff by (rewrite elem_of_cons; tauto).
        by rewrite (bool_decide_ext _ _ Hiff).
Qed.

(** What a successful [mkdir] leaves on disk. *)
Lemma mkdir_parents_ok p w w' :
  mkdir_parents p w = (w', inr ()) →
  trace w' = trace w ∧
  (∀ q, files w' !! q =
          match files w !! q with
          | Some x => Some x
          | None => if bool_decide (q ∈ lineage p) then Some Dir else None
          end) ∧
  lookup_path p w' = Some Dir.
Proof.
  unfold mkdir_parents. case_bool_decide as Hfile; [done|].
  intros [= <-]. split; [done|]. split.
  - intros q. apply foldr_mkdir_lookup.
  - destruct (decide (parts p = [])) as [Hp|Hp].
    { unfold lookup_path. by rewrite Hp. }
    rewrite lookup_path_files by done. simpl.
    rewrite foldr_mkdir_lookup.
    rewrite bool_decide_eq_true_2 by by apply lineage_self.
    destruct (files w !! p) as [[|c]|] eqn:Hl; [done| |done].
    exfalso. apply Hfile. apply Exists_exists. exists p. split.
    + by apply lineage_self.
    + unfold is_file. rewrite lookup_path_files by done. by rewrite Hl.
Qed.

Lemma path_exists_eq p w :
  path_exists p w = (w, inr (bool_decide (is_Some (lookup_path p w)))).
Proof. reflexivity. Qed.

Lemma path_is_dir_eq p w :
  path_is_dir p w = (w, inr match lookup_path p w with Some Dir => true | _ => false end).
Proof. reflexivity. Qed.

End filesystem.

End PythonFacts.

(** ** Grid search *)

Module GridSearchFacts.
Import Python GridSearch PythonFacts.

Section facts.
Context {V : Type} `{!PyObject V} `{!PyHashing}.
Context {State TradeSummary Metrics Universe : Type}.

#[local] Abbreviation Result := (GridSearchResult V State TradeSummary Metrics).
#[local] Abbreviation World := (world Result (GridCombination V)).
#[local] Abbreviation Worker := (GridSearchWorker V State TradeSummary Metrics Universe).

(** *** Equality and hashing *)

Lemma GridParameter_eq_true (p q : GridParameter V) :
  GridParameter_eq p q = true ↔ name p = name q ∧ py_eq (value p) (value q) = true.
Proof.
  unfold GridParameter_eq. rewrite andb_true_iff, String.eqb_eq. done.
Qed.

Lemma GridParameter_eq_hash `{!PyHashable V} (p q : GridParameter V) h k :
  GridParameter_eq p q = true →
  GridParameter_hash p = inr h → GridParameter_hash q = inr k → h = k.
Proof.
  intros [Hn Hv]%GridParameter_eq_true. unfold GridParameter_hash.
  destruct (py_hash (value p)) as [e|hp] eqn:Hp; [done|].
  destruct (py_hash (value q)) as [e|hq] eqn:Hq; [done|].
  intros [= <-] [= <-]. by rewrite Hn, (py_hash_eq _ _ _ _ Hv Hp Hq).
Qed.

Lemma tuple_eq_Forall2 {A} (eq : A → A → bool) (s t : list A) :
  tuple_eq eq s t = true ↔ Forall2 (λ x y, eq x y = true) s t.
Proof.
  revert t. induction s as [|x s IH]; intros [|y t]; simpl; split;
    try done; try by inversion 1.
  - intros [Hx Hs]%andb_true_iff. constructor; [done|]. by apply IH.
  - inversion 1; subst. apply andb_true_iff. split; [done|]. by apply IH.
Qed.

Lemma mapM_exn_cons {A B} (f : A → pyexn + B) x l ys :
  mapM f (x :: l) = inr ys ↔ ∃ y ys', f x = inr y ∧ mapM f l = inr ys' ∧ ys = y :: ys'.
Proof.
  cbn [mapM]. destruct (f x) as [e|y]; cbn.
  { split; [done|]. by intros (? & ? & ? & _). }
  destruct (mapM f l) as [e|ys']; cbn.
  { split; [done|]. by intros (? & ? & _ & ? & _). }
  split.
  - intros [= <-]. eauto.
  - by intros (? & ? & [= <-] & [= <-] & ->).
Qed.

Lemma tuple_eq_hashes `{!PyHashable V} (s t : list (GridParameter V)) hs ks :
  Forall2 (λ p q, GridParameter_eq p q = true) s t →
  mapM GridParameter_hash s = inr hs → mapM GridParameter_hash t = inr ks → hs = ks.
Proof.
  intros Hall. revert hs ks. induction Hall as [|p q s t Hpq _ IH]; intros hs ks.
  - by intros [= <-] [= <-].
  - intros (h & hs' & Hp & Hs & ->)%mapM_exn_cons (k & ks' & Hq & Ht & ->)%mapM_exn_cons.
    f_equal; [by eapply GridParameter_eq_hash|by apply IH].
Qed.

(** C7: two grid combinations compare equal exactly when their parameter
    tuples are equal, item by item (same names, equal values); the result
    path takes no part in the comparison; and combinations that compare equal
    have the same hash, the values honouring the hash contract. *)
Theorem GridCombination_eq_by_parameters `{!PyHashable V} (c d : GridCombination V) :
  (GridCombination_eq c d = true ↔
     Forall2 (λ p q, name p = name q ∧ py_eq (value p) (value q) = true)
             (parameters c) (parameters d)) ∧
  (∀ rc rd : Path,
     GridCombination_eq (MkGridCombination rc (parameters c))
                        (MkGridCombination rd (parameters d))
     = GridCombination_eq c d) ∧
  (GridCombination_eq c d = true →
   ∀ h k, GridCombination_hash c = inr h → GridCombination_hash d = inr k → h = k).
Proof.
  unfold GridCombination_eq, GridCombination_hash. split; [|split].
  - rewrite tuple_eq_Forall2. split; intros Hall.
    + eapply Forall2_impl; [exact Hall|]. intros p q. by rewrite GridParameter_eq_true.
    + eapply Forall2_impl; [exact Hall|]. intros p q. by rewrite GridParameter_eq_true.
  - done.
  - rewrite tuple_eq_Forall2. intros Hall h k.
    destruct (mapM GridParameter_hash (parameters c)) as [e|hs] eqn:Hc; [done|].
    destruct (mapM GridParameter_hash (parameters d)) as [e|ks] eqn:Hd; [done|].
    intros [= <-] [= <-]. by rewrite (tuple_eq_hashes _ _ _ _ Hall Hc Hd).
Qed.

(** *** Preparing the combinations *)

Lemma prepare_grid_combinations_split grid rp clear (w : World) :
  prepare_grid_combinations grid rp clear w
  = (prepare_result_path rp clear;; build_combinations grid rp) w.
Proof.
  unfold prepare_grid_combinations, prepare_result_path, clear_result_path,
    build_combinations.
  by rewrite bind_assoc_at.
Qed.

(** Pure loops that may raise. *)
Lemma mapM_exn_all {A B} (f : A → pyexn + B) (g : A → B) l :
  Forall (λ x, f x = inr (g x)) l → mapM f l = inr (g <$> l).
Proof.
  induction 1 as [|x l Hx _ IH]; [done|].
  cbn [mapM]. rewrite Hx. cbn. rewrite IH. done.
Qed.

Lemma mapM_exn_raise {A B} (f : A → pyexn + B) (g : A → B) e l :
  Forall (λ x, f x = inr (g x) ∨ f x = inl e) l →
  Exists (λ x, f x = inl e) l →
  mapM f l = inl e.
Proof.
  induction 1 as [|x l Hx _ IH]; intros Hex; [by apply Exists_nil in Hex|].
  cbn [mapM]. destruct Hx as [Hx|Hx]; rewrite Hx; cbn; [|done].
  apply Exists_cons in Hex as [Hex|Hex]; [congruence|]. by rewrite (IH Hex).
Qed.

Lemma to_path_cases (p : GridParameter V) :
  (supported (value p) ∧ to_path p = inr (name p +:+ "=" +:+ py_str (value p))) ∨
  (¬ supported (value p) ∧ to_path p = inl NotImplementedError).
Proof. unfold to_path, supported. case_bool_decide; [left|right]; done. Qed.

Lemma validate_cases (c : GridCombination V) :
  parameters c ≠ [] →
  validate c = if bool_decide (Forall (λ p, supported (value p)) (parameters c))
               then inr () else inl NotImplementedError.
Proof.
  intros Hne. unfold validate, get_relative_result_path.
  case_bool_decide as Hall.
  - rewrite (mapM_exn_all to_path (λ p, name p +:+ "=" +:+ py_str (value p))).
    + destruct (parameters c); done.
    + eapply Forall_impl; [exact Hall|]. intros p Hp.
      by destruct (to_path_cases p) as [[_ ->]|[? _]].
  - rewrite (mapM_exn_raise to_path (λ p, name p +:+ "=" +:+ py_str (value p))
               NotImplementedError); [done| |].
    + apply Forall_forall. intros p _.
      destruct (to_path_cases p) as [[_ ->]|[_ ->]]; auto.
    + apply not_Forall_Exists in Hall; [|apply _].
      eapply Exists_impl; [exact Hall|]. intros p Hp.
      by destruct (to_path_cases p) as [[? _]|[_ ->]].
Qed.

(** [sort_by_order] gives back a combination whose names are the order. *)
Lemma temp_lookup (c : list (GridParameter V)) (m0 : gmap string (GridParameter V)) :
  NoDup (name <$> c) →
  (∀ p, p ∈ c → foldl (λ m p, <[name p := p]> m) m0 c !! name p = Some p) ∧
  (∀ k, k ∉ name <$> c → foldl (λ m p, <[name p := p]> m) m0 c !! k = m0 !! k).
Proof.
  revert m0. induction c as [|x c IH]; intros m0 Hnd; simpl.
  - split; [by intros p ?%elem_of_nil|done].
  - apply NoDup_cons in Hnd as [Hx Hnd].
    destruct (IH (<[name x := x]> m0) Hnd) as [IH1 IH2]. split.
    + intros p [->|Hp]%elem_of_cons; [|by apply IH1].
      rewrite IH2 by done. apply lookup_insert_eq.
    + intros k Hk. apply not_elem_of_cons in Hk as [Hkx Hk].
      rewrite IH2 by done. by apply lookup_insert_ne.
Qed.

(** Whatever order a tuple comes in, [sort_by_order] puts it in the order of
    the names. *)
Lemma sort_by_order_permutation (c shuffled : list (GridParameter V)) :
  NoDup (name <$> c) → shuffled ≡ₚ c →
  sort_by_order (name <$> c) shuffled = inr c.
Proof.
  intros Hnd Hperm. unfold sort_by_order.
  assert (NoDup (name <$> shuffled)) as Hnd' by by rewrite Hperm.
  destruct (temp_lookup shuffled ∅ Hnd') as [Hin _].
  set (temp := foldl _ _ _) in *. clearbody temp.
  assert (Forall (λ p, temp !! name p = Some p) c) as Hall.
  { apply Forall_forall. intros p Hp. apply Hin. by rewrite Hperm. }
  clear Hin Hnd Hnd' Hperm. induction Hall as [|p c Hp _ IH]; [done|].
  cbn [fmap list_fmap mapM]. rewrite Hp. cbn. rewrite IH. done.
Qed.

Lemma sort_by_order_id (c : list (GridParameter V)) :
  NoDup (name <$> c) → sort_by_order (name <$> c) c = inr c.
Proof. intros Hnd. by apply sort_by_order_permutation. Qed.

(** [itertools.product] enumerates the Cartesian product. *)
Lemma elem_of_product {A} (ls : list (list A)) (t : list A) :
  t ∈ product ls ↔ Forall2 (λ x l, x ∈ l) t ls.
Proof.
  revert t. induction ls as [|l ls IH]; intros t; simpl.
  - rewrite list_elem_of_singleton. split; [intros ->; constructor|by inversion 1].
  - rewrite list_elem_of_bind. split.
    + intros (x & (t' & -> & Ht')%list_elem_of_fmap & Hx).
      constructor; [done|]. by apply IH.
    + inversion 1 as [|x ? t' ? Hx Ht']; subst.
      exists x. split; [|done]. apply list_elem_of_fmap. exists t'.
      split; [done|]. by apply IH.
Qed.

Lemma length_product {A} (ls : list (list A)) :
  length (product ls) = foldr (λ l n, length l * n)%nat 1%nat ls.
Proof.
  induction ls as [|l ls IH]; [done|]. simpl. rewrite <- IH. clear IH.
  induction l as [|x l IHl]; [done|].
  cbn [mbind list_bind]. rewrite length_app, length_fmap.
  change (list_bind _ _ (λ x, (λ t, x :: t) <$> product ls) l)
    with (x ← l; (λ t, x :: t) <$> product ls).
  rewrite IHl. simpl. done.
Qed.

Lemma elem_of_args_product grid (c : list (GridParameter V)) :
  c ∈ product (args_lists grid) ↔
  Forall2 (λ p item, name p = item.1 ∧ value p ∈ item.2) c grid.
Proof.
  rewrite elem_of_product. unfold args_lists. rewrite Forall2_fmap_r.
  split; intros Hall; (eapply Forall2_impl; [exact Hall|]); intros p item; simpl.
  - by intros (v & -> & Hv)%list_elem_of_fmap.
  - intros [Hn Hv]. apply list_elem_of_fmap. exists (value p).
    split; [|done]. destruct p; simpl in *. by subst.
Qed.

Lemma new_GridCombination_ok (ps : list (GridParameter V)) rp (w : World) :
  ps ≠ [] → lookup_path rp w = Some Dir →
  new_GridCombination ps rp w = (w, inr (MkGridCombination rp ps)).
Proof.
  intros Hne Hdir. unfold new_GridCombination.
  rewrite (bind_ok _ _ _ w ()).
  2:{ rewrite bool_decide_eq_true_2; [done|]. destruct ps; [done|simpl; lia]. }
  steps (path_exists_eq rp w). rewrite Hdir.
  rewrite bool_decide_eq_true_2 by eauto.
  steps (path_is_dir_eq rp w). rewrite Hdir.
  done.
Qed.

(** Building the combinations in a world where the result directory exists:
    every tuple of the product becomes a combination; the validation that
    follows rejects the grid only for a value of an unsupported type. *)
Lemma build_combinations_outcome grid rp (w : World) :
  grid ≠ [] → NoDup grid.*1 → lookup_path rp w = Some Dir →
  build_combinations grid rp w =
    (w, if bool_decide (Forall (Forall (λ p, supported (value p))) (product (args_lists grid)))
        then inr (MkGridCombination rp <$> product (args_lists grid))
        else inl NotImplementedError).
Proof.
  intros Hgrid Hnd Hdir. unfold build_combinations. fold (args_lists grid).
  assert (∀ c, c ∈ product (args_lists grid) → name <$> c = grid.*1 ∧ c ≠ []) as Hc.
  { intros c Hc%elem_of_args_product. split.
    - clear Hgrid Hnd. induction Hc as [|p item c g [Hp _] _ IH]; [done|].
      cbn [fmap list_fmap]. by f_equal.
    - intros ->. inversion Hc; subst. done. }
  rewrite (bind_ok _ _ _ w (MkGridCombination rp <$> product (args_lists grid))).
  2:{ apply mapM_pure. apply Forall_forall. intros c Hin.
      destruct (Hc c Hin) as [Hnames Hne].
      rewrite <- Hnames, sort_by_order_id by (by rewrite Hnames).
      rewrite (bind_ok _ _ _ w c) by done.
      by apply new_GridCombination_ok. }
  case_bool_decide as Hall.
  - rewrite (bind_ok _ _ _ w ((λ _, ()) <$> (MkGridCombination rp <$> product (args_lists grid)))); [done|].
    apply mapM_pure. apply Forall_fmap, Forall_forall. intros c Hin. simpl.
    rewrite validate_cases by (simpl; by apply Hc).
    rewrite bool_decide_eq_true_2; [done|]. simpl.
    by apply (proj1 (Forall_forall _ _) Hall).
  - erewrite bind_raise; [done|].
    apply (mapM_first_raise _ (λ _, ())).
    + apply Forall_fmap, Forall_forall. intros c Hin. simpl.
      rewrite validate_cases by (simpl; by apply Hc).
      case_bool_decide; [by left|by right].
    + apply Exists_fmap. apply not_Forall_Exists in Hall; [|apply _].
      apply Exists_exists in Hall as (c & Hin & Hbad).
      apply Exists_exists. exists c. split; [done|]. simpl.
      rewrite validate_cases by (simpl; by apply Hc).
      by rewrite bool_decide_eq_false_2.
Qed.

Lemma prepare_result_path_ok rp clear (w w1 : World) :
  prepare_result_path rp clear w = (w1, inr ()) → lookup_path rp w1 = Some Dir.
Proof.
  unfold prepare_result_path. intros Hprep.
  destruct (clear_result_path rp clear w) as [w0 [e|[]]] eqn:Hclear.
  { by stops Hclear in Hprep. }
  steps Hclear in Hprep.
  by apply mkdir_parents_ok in Hprep as (_ & _ & ?).
Qed.

(** Building and validating the combinations reads the file system only. *)
Lemma new_GridCombination_state (ps : list (GridParameter V)) rp (w : World) :
  (new_GridCombination ps rp w).1 = w.
Proof.
  unfold new_GridCombination, mbind, M_bind, assert, path_exists, path_is_dir, gets.
  destruct (bool_decide (0 < length ps)%nat); [|done]. simpl.
  destruct (bool_decide (is_Some (lookup_path rp w))); simpl; [|done].
  by destruct (lookup_path rp w) as [[|?]|].
Qed.

Lemma build_combinations_state grid rp (w : World) :
  (build_combinations grid rp w).1 = w.
Proof.
  unfold build_combinations. apply bind_state.
  - apply mapM_state. intros c s. apply bind_state.
    + by destruct (sort_by_order grid.*1 c).
    + intros ps. apply new_GridCombination_state.
  - intros cs. apply bind_state; [|done].
    apply mapM_state. intros c s. by destruct (validate c).
Qed.

(** Without [clear_cached_results] whatever is on disk stays on disk. *)
Lemma prepare_grid_combinations_keeps_files grid rp (w : World) q x :
  files w !! q = Some x →
  files (prepare_grid_combinations grid rp false w).1 !! q = Some x.
Proof.
  intros Hq. rewrite prepare_grid_combinations_split.
  unfold mbind at 1, M_bind at 1.
  destruct (prepare_result_path rp false w) as [w1 [e|[]]] eqn:Hprep.
  - unfold prepare_result_path, clear_result_path in Hprep.
    rewrite (bind_ok _ _ _ w ()) in Hprep by done.
    unfold mkdir_parents in Hprep. by case_bool_decide; simplify_eq.
  - rewrite build_combinations_state.
    unfold prepare_result_path, clear_result_path in Hprep.
    rewrite (bind_ok _ _ _ w ()) in Hprep by done.
    apply mkdir_parents_ok in Hprep as (_ & Hfiles & _). by rewrite Hfiles, Hq.
Qed.

Lemma prepare_grid_combinations_after_setup grid rp clear (w w1 : World) :
  grid ≠ [] → NoDup grid.*1 →
  prepare_result_path rp clear w = (w1, inr ()) →
  prepare_grid_combinations grid rp clear w =
    (w1, if bool_decide (Forall (Forall (λ p, supported (value p))) (product (args_lists grid)))
         then inr (MkGridCombination rp <$> product (args_lists grid))
         else inl NotImplementedError).
Proof.
  intros Hgrid Hnd Hprep. rewrite prepare_grid_combinations_split.
  steps Hprep.
  apply build_combinations_outcome; [done..|]. by eapply prepare_result_path_ok.
Qed.

(** C10: an empty parameter grid never yields a combination.  Whatever the
    result path, the flag and the files, [prepare_grid_combinations] raises:
    the error of the directory set-up if that fails, and otherwise the
    [AssertionError] of the one tuple [itertools.product] yields for no
    lists, which has no parameters. *)
Theorem prepare_grid_combinations_empty_grid rp clear (w : World) :
  prepare_grid_combinations [] rp clear w =
    ((prepare_result_path rp clear w).1,
     inl match (prepare_result_path rp clear w).2 with
         | inl e => e
         | inr _ => AssertionError
         end).
Proof.
  rewrite prepare_grid_combinations_split.
  destruct (prepare_result_path rp clear w) as [w1 [e|[]]] eqn:Hprep.
  - by stops Hprep.
  - by steps Hprep.
Qed.

(** C3, amended: for a grid (a dict, so its names are distinct) with at
    least one name, whose candidate values all have type float, int or str,
    and a result directory that could be set up, [prepare_grid_combinations] returns the full Cartesian product: as
    many combinations as the product of the list lengths; the parameter
    tuples returned are exactly the tuples that take, for each name of the
    grid in declaration order, one of its candidate values; and every
    combination carries the result path and lists its parameters in the
    declaration order of the grid's names, which is the order [sort_by_order]
    gives to its tuple in whatever order the tuple is enumerated. *)
Theorem prepare_grid_combinations_cartesian grid rp clear (w : World) :
  grid ≠ [] →
  NoDup grid.*1 →
  Forall (λ item, Forall supported item.2) grid →
  (prepare_result_path rp clear w).2 = inr () →
  ∃ combinations,
    (prepare_grid_combinations grid rp clear w).2 = inr combinations ∧
    length combinations = foldr (λ item n, length item.2 * n)%nat 1%nat grid ∧
    (∀ ps, ps ∈ parameters <$> combinations ↔
           Forall2 (λ p item, name p = item.1 ∧ value p ∈ item.2) ps grid) ∧
    Forall (λ c, result_path c = rp ∧ name <$> parameters c = grid.*1 ∧
                 ∀ shuffled, shuffled ≡ₚ parameters c →
                             sort_by_order grid.*1 shuffled = inr (parameters c))
           combinations.
Proof.
  intros Hgrid Hnd Hsup Hprep.
  destruct (prepare_result_path rp clear w) as [w1 [e|[]]] eqn:Hprep'; [done|].
  exists (MkGridCombination rp <$> product (args_lists grid)).
  rewrite (prepare_grid_combinations_after_setup _ _ _ _ _ Hgrid Hnd Hprep').
  assert (∀ c, c ∈ product (args_lists grid) → name <$> c = grid.*1) as Hnames.
  { intros c Hc%elem_of_args_product. clear -Hc.
    induction Hc as [|p item c g [Hp _] _ IH]; [done|].
    cbn [fmap list_fmap]. by f_equal. }
  split; [|split; [|split]].
  - rewrite bool_decide_eq_true_2; [done|].
    apply Forall_forall. intros c Hc%elem_of_args_product.
    clear -Hc Hsup. induction Hc as [|p item c g [_ Hv] _ IH]; [done|].
    apply Forall_cons in Hsup as [Hitem Hsup]. constructor; [|by apply IH].
    by apply (proj1 (Forall_forall _ _) Hitem).
  - rewrite length_fmap, length_product. unfold args_lists.
    clear. induction grid as [|item g IH]; [done|].
    cbn [fmap list_fmap foldr]. by rewrite length_fmap, IH.
  - intros ps. rewrite <- list_fmap_compose.
    rewrite <- elem_of_args_product.
    replace (parameters ∘ MkGridCombination rp) with (@id (list (GridParameter V))) by done.
    by rewrite list_fmap_id.
  - apply Forall_fmap, Forall_forall. intros c Hc. simpl.
    split; [done|]. split; [by apply Hnames|].
    intros shuffled Hperm. rewrite <- (Hnames c Hc).
    apply sort_by_order_permutation; [|done]. by rewrite (Hnames c Hc).
Qed.

Lemma build_combinations_empty rp (w : World) :
  (build_combinations [] rp w).2 = inl AssertionError.
Proof. reflexivity. Qed.

(** C5, amended: the preparation performs no collision detection.  For a
    grid whose names are distinct (they are the keys of a dict), once the
    result directory is set up, the checks at setup time are these two and
    no other: the grid has a name at all (the grid without names raises the
    [AssertionError] of [GridCombination.__post_init__]), and every
    combination's relative path can be rendered ([NotImplementedError]
    exactly when some combination holds a value whose type is not float, int
    or str).  In every other case [prepare_grid_combinations] returns every
    combination of the product, whether or not two of them derive the same
    path. *)
Theorem prepare_grid_combinations_validation grid rp clear (w : World) :
  NoDup grid.*1 →
  (prepare_result_path rp clear w).2 = inr () →
  (prepare_grid_combinations grid rp clear w).2 =
    match grid with
    | [] => inl AssertionError
    | _ =>
        if bool_decide (Forall (Forall (λ p, supported (value p))) (product (args_lists grid)))
        then inr (MkGridCombination rp <$> product (args_lists grid))
        else inl NotImplementedError
    end.
Proof.
  intros Hnd Hprep.
  destruct (prepare_result_path rp clear w) as [w1 [e|[]]] eqn:Hprep'; [done|].
  destruct grid as [|item grid].
  - rewrite prepare_grid_combinations_split. steps Hprep'.
    apply build_combinations_empty.
  - assert (item :: grid ≠ []) as Hgrid by done.
    by rewrite (prepare_grid_combinations_after_setup _ _ _ _ _ Hgrid Hnd Hprep').
Qed.

(** C6: clearing the cache only works on an empty result directory.  When
    the result path is a directory that still has entries below it (cached
    results), [prepare_grid_combinations] with [clear_cached_results] raises
    the error of [rmdir] on a directory that is not empty, and removes
    nothing. *)
Theorem prepare_grid_combinations_clear_not_empty grid rp (w : World) :
  parts rp ≠ [] →
  files w !! rp = Some Dir →
  has_entries rp w = true →
  prepare_grid_combinations grid rp true w = (w, inl DirectoryNotEmpty).
Proof.
  intros Hparts Hdir Hfull. rewrite prepare_grid_combinations_split.
  apply bind_raise. unfold prepare_result_path. apply bind_raise.
  unfold clear_result_path.
  steps (path_exists_eq rp w).
  rewrite lookup_path_files, Hdir by done.
  rewrite bool_decide_eq_true_2 by eauto.
  unfold rmdir. destruct (parts rp); [done|]. by rewrite Hdir, Hfull.
Qed.

(** *** Running the combinations *)

Lemma has_result_eq (c : GridCombination V) full (w : World) :
  get_full_result_path c = inr full →
  has_result c w =
    (w, inr (bool_decide (is_Some
       (lookup_path (joinpath (joinpath (result_path c) full) result_pickle) w)))).
Proof. intros Hfull. unfold has_result. by rewrite Hfull. Qed.

(** With an absolute result path [has_result] looks where [load] and [save]
    read and write. *)
Lemma has_result_absolute (c : GridCombination V) full (w : World) :
  is_absolute (result_path c) = true →
  get_full_result_path c = inr full →
  has_result c w =
    (w, inr (bool_decide (is_Some (lookup_path (joinpath full result_pickle) w)))).
Proof.
  intros Habs Hfull. rewrite (has_result_eq _ _ _ Hfull).
  assert (is_absolute full = true) as Hf.
  { unfold get_full_result_path in Hfull.
    destruct (get_relative_result_path c) as [e|rel]; [done|].
    injection Hfull as <-. unfold joinpath. by destruct (is_absolute rel) eqn:?. }
  assert (joinpath (result_path c) full = full) as ->; [|done].
  unfold joinpath. by rewrite Hf.
Qed.

(** Under an absolute result path the function is the resumable cache it is
    meant to be: a stored result is returned as cached, without the worker. *)
Lemma run_grid_combination_hit (worker : Worker) u c full r0 (w : World) :
  is_absolute (result_path c) = true →
  get_full_result_path c = inr full →
  lookup_path (joinpath full result_pickle) w = Some (File r0) →
  run_grid_combination worker u c w = (w, inr (set_cached true r0)).
Proof.
  intros Habs Hfull Hartifact. unfold run_grid_combination.
  steps (has_result_absolute _ _ _ Habs Hfull). rewrite Hartifact.
  rewrite bool_decide_eq_true_2 by eauto.
  unfold load. rewrite Hfull. unfold read_pickle, lift, mbind, M_bind. simpl.
  by rewrite Hartifact.
Qed.

Lemma run_grid_combination_miss (worker : Worker) u c full (w : World) :
  is_absolute (result_path c) = true →
  get_full_result_path c = inr full →
  lookup_path (joinpath full result_pickle) w = None →
  run_grid_combination worker u c w
  = (result ← call_worker worker u c; save result;; mret result) w.
Proof.
  intros Habs Hfull Hartifact. unfold run_grid_combination.
  steps (has_result_absolute _ _ _ Habs Hfull). rewrite Hartifact.
  rewrite bool_decide_eq_false_2; [done|]. by intros [? ?].
Qed.

Lemma call_worker_trace (worker : Worker) u c (w : World) :
  trace (call_worker worker u c w).1 = trace w ++ [c].
Proof.
  unfold call_worker, record_event, modify, on_files, mbind, M_bind. simpl.
  by destruct (worker u c (files w)) as [f r].
Qed.

Lemma save_trace (r : Result) (w : World) : trace (save r w).1 = trace w.
Proof.
  unfold save, mbind, M_bind.
  destruct (get_full_result_path (combination r)) as [e|base]; [done|]. simpl.
  destruct (mkdir_parents base w) as [w1 [e|[]]] eqn:Hmk.
  - unfold mkdir_parents in Hmk. by case_bool_decide; simplify_eq.
  - assert (trace w1 = trace w) as <-.
    { unfold mkdir_parents in Hmk. by case_bool_decide; simplify_eq. }
    unfold write_pickle. by repeat case_match.
Qed.

(** C2: the cache check misses under a relative result path.  Take a
    combination whose result artifact is on disk, at the [result.pickle]
    below its full result path.  [has_result] joins the result path with the
    full result path, which already starts with it; when nothing exists at
    that doubled path, [run_grid_combination] does not load the artifact: it
    runs the worker (the worker is invoked on the combination) and saves and
    returns what the worker returns. *)
Theorem run_grid_combination_misses_artifact (worker : Worker) u c full r0 (w : World) :
  get_full_result_path c = inr full →
  lookup_path (joinpath full result_pickle) w = Some (File r0) →
  lookup_path (joinpath (joinpath (result_path c) full) result_pickle) w = None →
  run_grid_combination worker u c w
    = (result ← call_worker worker u c; save result;; mret result) w ∧
  trace (run_grid_combination worker u c w).1 = trace w ++ [c].
Proof.
  intros Hfull Hartifact Hdoubled.
  assert (run_grid_combination worker u c w
          = (result ← call_worker worker u c; save result;; mret result) w) as Hrun.
  { unfold run_grid_combination.
    steps (has_result_eq _ _ _ Hfull). rewrite Hdoubled.
    rewrite bool_decide_eq_false_2; [done|]. by intros [? ?]. }
  split; [done|]. rewrite Hrun. pose proof (call_worker_trace worker u c w) as Hcall.
  unfold mbind at 1, M_bind at 1.
  destruct (call_worker worker u c w) as [w1 [e|r]]; [done|]. simpl in Hcall.
  pose proof (save_trace r w1) as Hsave.
  unfold mbind, M_bind. destruct (save r w1) as [w2 [e|[]]]; simpl in *; congruence.
Qed.

Lemma has_result_state (c : GridCombination V) (w : World) : (has_result c w).1 = w.
Proof.
  unfold has_result. destruct (get_full_result_path c) as [e|full]; done.
Qed.

(** *** The tasks of a search, step by step *)

#[local] Abbreviation Stage := (stage V State TradeSummary Metrics).
#[local] Abbreviation Pool := (pool V State TradeSummary Metrics).

Lemma call_worker_eq (worker : Worker) u c (w : World) :
  call_worker worker u c w
  = (MkWorld (worker u c (files w)).1 (trace w ++ [c]), (worker u c (files w)).2).
Proof.
  unfold call_worker, on_files, mbind, M_bind, record_event, modify. simpl.
  by destruct (worker u c (files w)).
Qed.

Lemma save_steps (r : Result) (w : World) :
  save r w =
    match (base_path ← lift (get_full_result_path (combination r));
           mkdir_parents base_path;; mret base_path) w with
    | (w', inl e) => (w', inl e)
    | (w', inr base_path) => write_pickle (joinpath base_path result_pickle) r w'
    end.
Proof.
  unfold save. destruct (get_full_result_path (combination r)) as [e|full]; [done|].
  unfold lift, mret, M_ret, mbind, M_bind.
  by destruct (mkdir_parents full w) as [w1 [e|[]]].
Qed.

Lemma run_grid_combination_steps (worker : Worker) u c (w : World) :
  run_grid_combination worker u c w =
    match has_result c w with
    | (w0, inl e) => (w0, inl e)
    | (w0, inr true) => load c w0
    | (w0, inr false) =>
        match call_worker worker u c w0 with
        | (w1, inl e) => (w1, inl e)
        | (w1, inr r) =>
            match save r w1 with
            | (w2, inl e) => (w2, inl e)
            | (w2, inr _) => (w2, inr r)
            end
        end
    end.
Proof.
  unfold run_grid_combination, mbind, M_bind.
  destruct (has_result c w) as [w0 [e|[|]]]; [done..|].
  destruct (call_worker worker u c w0) as [w1 [e|r]]; [done|].
  by destruct (save r w1) as [w2 [e|[]]].
Qed.

(** A task run alone, step after step, is [run_grid_combination]. *)
Lemma task_steps_alone (worker : Worker) u c (w : World) :
  Nat.iter 5 (λ ws, task_step worker u c ws.2 ws.1) (w, Queued)
  = ((run_grid_combination worker u c w).1, Finished (run_grid_combination worker u c w).2).
Proof.
  rewrite run_grid_combination_steps. unfold Nat.iter. cbn [nat_rect task_step fst snd].
  destruct (has_result c w) as [w0 [e|[|]]]; cbn [task_step fst snd].
  { done. }
  { by destruct (load c w0). }
  rewrite call_worker_eq. unfold record_event, modify.
  cbn [task_step fst snd files trace]. unfold on_files. cbn [files trace].
  destruct (worker u c (files w0)) as [f [e|r]]; cbn [task_step fst snd]; [done|].
  rewrite save_steps.
  destruct ((base_path ← lift (get_full_result_path (combination r));
             mkdir_parents base_path;; mret base_path) (MkWorld f (trace w0 ++ [c])))
    as [w1 [e|base]]; cbn [task_step fst snd]; [done|].
  by destruct (write_pickle (joinpath base result_pickle) r w1) as [w2 [e|[]]].
Qed.


Lemma omap_insert_none {A B} (f : A → option B) (l : list A) i s s' :
  l !! i = Some s → f s = None → f s' = None → omap f (<[i := s']> l) = omap f l.
Proof.
  revert i. induction l as [|x l IH]; intros [|i] Hl Hs Hs'; try done.
  - injection Hl as ->. cbn. by rewrite Hs, Hs'.
  - specialize (IH i Hl Hs Hs'). cbn. destruct (f x); [f_equal|]; exact IH.
Qed.

Lemma omap_insert_some {A B} (f : A → option B) (l : list A) i s s' y :
  l !! i = Some s → f s = None → f s' = Some y → omap f (<[i := s']> l) ≡ₚ y :: omap f l.
Proof.
  revert i. induction l as [|x l IH]; intros [|i] Hl Hs Hs'; try done.
  - injection Hl as ->. cbn. by rewrite Hs, Hs'.
  - specialize (IH i Hl Hs Hs'). cbn. destruct (f x) as [b|]; [|exact IH].
    etrans; [apply Permutation_skip, IH|]. apply Permutation_swap.
Qed.

Lemma omap_finished_length (l : list Stage) k :
  (∀ j, (j < k)%nat → ∃ s, l !! j = Some s ∧ is_finished s = true) →
  Forall (λ s, ∀ e, s ≠ Finished (inl e)) l →
  (k ≤ length (omap result_of l))%nat.
Proof.
  revert k. induction l as [|x l IH]; intros k Hfin Hok.
  - destruct k; [lia|]. destruct (Hfin 0%nat) as (s & Hs & _); [lia|done].
  - destruct k as [|k]; [lia|]. apply Forall_cons in Hok as [Hx Hok].
    destruct (Hfin 0%nat) as (s & [= <-] & Hs); [lia|].
    destruct x as [| | | | |[e|r]]; try done. { by destruct (Hx e). }
    simpl. apply le_n_S, IH; [|done].
    intros j Hj. apply (Hfin (S j)). lia.
Qed.

Lemma steps_left_step (worker : Worker) u c (s : Stage) (w : World) :
  is_finished s = false →
  (steps_left (task_step worker u c s w).2 < steps_left s)%nat.
Proof.
  destruct s as [|[|]| | | |]; intros Hs; try done; cbn [task_step].
  - destruct (has_result c w) as [w0 [e|found]]; simpl; lia.
  - destruct (load c w) as [w0 o]; simpl; lia.
  - simpl. lia.
  - destruct (on_files (worker u c) w) as [w0 [e|r]]; simpl; lia.
  - match goal with |- context [match ?x with _ => _ end] => destruct x as [w0 [e|b]] end;
      simpl; lia.
  - destruct (write_pickle _ _ w) as [w0 [e|[]]]; simpl; lia.
Qed.

(** *** Runs of the pool *)

Section run.
Variables (worker : Worker) (u : Universe) (combinations : list (GridCombination V))
  (window : nat).

#[local] Abbreviation tick := (pool_tick worker u combinations window).
#[local] Abbreviation run l pw :=
  (foldl (λ pw i, pool_tick worker u combinations window i pw) pw l).

(** A tick either passes, or moves one task that has been handed over and
    has not finished. *)
Lemma pool_tick_cases i (p : Pool) (w : World) :
  tick i (p, w) = (p, w) ∨
  ∃ c s, combinations !! i = Some c ∧ stages p !! i = Some s ∧ is_finished s = false ∧
         (i < window + length (completed p))%nat ∧
         tick i (p, w) =
           (collect (task_step worker u c s w).2
              (MkPool (<[i := (task_step worker u c s w).2]> (stages p))
                      (completed p) (failure p)),
            (task_step worker u c s w).1).
Proof.
  unfold pool_tick. cbn [fst snd].
  destruct (combinations !! i) as [c|] eqn:Hc; [|by left].
  destruct (stages p !! i) as [s|] eqn:Hs; [|by left].
  case_bool_decide as Hin; cbn [andb]; [|by left].
  destruct (is_finished s) eqn:Hfin; cbn [negb]; [by left|].
  right. exists c, s. repeat split; try done.
  by destruct (task_step worker u c s w).
Qed.

#[local] Abbreviation pool_ok := (pool_ok combinations).

Lemma pool_ok_tick i (p : Pool) (w : World) :
  pool_ok p → pool_ok (tick i (p, w)).1.
Proof.
  intros (Hlen & Hnone & Hsome).
  destruct (pool_tick_cases i p w) as [->|(c & s & Hc & Hs & Hfin & Hin & ->)]; [done|].
  cbn [fst]. unfold pool_ok.
  set (s' := (task_step worker u c s w).2).
  assert (result_of s = None) as Hres by by destruct s as [| | | | |[|]].
  destruct (failure p) as [e0|] eqn:Hfail.
  - (* a task has failed already: nothing is collected *)
    unfold collect. cbn [failure stages completed].
    split; [by rewrite length_insert|]. split; [done|].
    intros e [= <-]. destruct (Hsome e0 eq_refl) as (j & Hj). exists j.
    cbn [stages]. rewrite list_lookup_insert_ne; [done|].
    intros <-. rewrite Hs in Hj. by simplify_eq.
  - destruct (Hnone eq_refl) as [Hperm Hgood].
    unfold collect. cbn [failure stages completed].
    destruct s' as [| | | | |[e|r]] eqn:Hs'; cbn [stages completed failure].
    1-5: (split; [by rewrite length_insert|]; split; [|done]; intros _; split;
          [by rewrite (omap_insert_none _ _ _ s)|];
          apply Forall_insert; [done|by intros e]).
    + split; [by rewrite length_insert|]. split; [done|].
      intros e' [= <-]. exists i. apply list_lookup_insert_eq.
      by apply lookup_lt_Some in Hs.
    + split; [by rewrite length_insert|]. split; [|done]. intros _. split.
      * rewrite (omap_insert_some _ _ _ s _ r) by done.
        by rewrite <- Hperm, Permutation_app_comm.
      * apply Forall_insert; [done|by intros e].
Qed.

Lemma pool_ok_run l (pw : Pool * World) : pool_ok pw.1 → pool_ok (run l pw).1.
Proof.
  revert pw. induction l as [|i l IH]; intros [p w] Hok; [done|].
  cbn [foldl]. apply IH. by apply pool_ok_tick.
Qed.

(** A failure, once recorded, stays. *)
Lemma failure_tick i (p : Pool) (w : World) e :
  failure p = Some e → failure (tick i (p, w)).1 = Some e.
Proof.
  intros Hfail.
  destruct (pool_tick_cases i p w) as [->|(c & s & _ & _ & _ & _ & ->)]; [done|].
  unfold collect. cbn [fst failure]. by rewrite Hfail.
Qed.

Lemma failure_run l (pw : Pool * World) :
  failure (run l pw).1 = None → failure pw.1 = None.
Proof.
  revert pw. induction l as [|i l IH]; intros [p w]; [done|].
  cbn [foldl]. intros Hnone. apply IH in Hnone.
  destruct (failure p) as [e|] eqn:Hfail; [|done].
  by rewrite (failure_tick i p w e Hfail) in Hnone.
Qed.

(** A finished task stays as it is. *)
Lemma finished_tick i j (p : Pool) (w : World) s :
  stages p !! j = Some s → is_finished s = true →
  stages (tick i (p, w)).1 !! j = Some s.
Proof.
  intros Hj Hfin.
  destruct (pool_tick_cases i p w) as [->|(c & s0 & _ & Hs0 & Hfin0 & _ & ->)]; [done|].
  assert (i ≠ j) as Hne by (intros ->; rewrite Hj in Hs0; simplify_eq; congruence).
  assert (∀ s' (q : Pool), stages (collect s' q) = stages q) as Hstages.
  { intros s' q. unfold collect. by destruct (failure q), s' as [| | | | |[|]]. }
  cbn [fst]. rewrite Hstages. cbn [stages]. by rewrite list_lookup_insert_ne.
Qed.

Lemma finished_run l j (pw : Pool * World) s :
  stages pw.1 !! j = Some s → is_finished s = true →
  stages (run l pw).1 !! j = Some s.
Proof.
  revert pw. induction l as [|i l IH]; intros [p w] Hj Hfin; [done|].
  cbn [foldl]. apply IH; [|done]. by apply finished_tick.
Qed.

(** Where the task manager has handed over its tasks up to [k]: enough
    turns finish task [k], unless a task fails. *)
Lemma run_turns k m (pw : Pool * World) s :
  (0 < window)%nat → pool_ok pw.1 →
  (∀ j, (j < k)%nat → ∃ s, stages pw.1 !! j = Some s ∧ is_finished s = true) →
  stages pw.1 !! k = Some s → (steps_left s ≤ m)%nat →
  failure (run (replicate m k) pw).1 = None →
  ∃ s', stages (run (replicate m k) pw).1 !! k = Some s' ∧ is_finished s' = true.
Proof.
  intros Hwin. revert pw s.
  induction m as [|m IH]; intros [p w] s Hok Hbefore Hk Hleft Hnone;
    cbn [fst snd] in Hok, Hbefore, Hk.
  - exists s. split; [done|]. destruct s; simpl in *; (lia || done).
  - cbn [replicate foldl] in *.
    pose proof (failure_run _ _ Hnone) as Hnone1.
    assert (failure p = None) as Hnone0.
    { destruct (failure p) as [e|] eqn:Hf; [|done].
      by rewrite (failure_tick k p w e Hf) in Hnone1. }
    destruct (is_finished s) eqn:Hfin.
    { exists s. split; [|done]. apply finished_run; [|done]. by apply finished_tick. }
    pose proof (pool_ok_tick k p w Hok) as Hok1.
    destruct (pool_tick_cases k p w) as [Hpass|(c & s0 & Hc & Hs0 & _ & _ & Htick)].
    + (* the task is within the window, so the tick cannot pass *)
      exfalso. revert Hpass. unfold pool_tick. cbn [fst snd].
      destruct Hok as (Hlen & Hgood & _). destruct (Hgood Hnone0) as [Hperm Hnofail].
      assert (is_Some (combinations !! k)) as [c Hc].
      { apply lookup_lt_is_Some. rewrite <- Hlen. by apply lookup_lt_Some in Hk. }
      rewrite Hc, Hk, Hfin. cbn [negb].
      rewrite bool_decide_eq_true_2.
      * cbn [andb]. destruct (task_step worker u c s w) as [w' s'] eqn:Hstep.
        intros [= Hp _].
        assert (stages (collect s' (MkPool (<[k:=s']> (stages p)) (completed p) (failure p)))
                  !! k = Some s') as Hs'.
        { assert (∀ q : Pool, stages (collect s' q) = stages q) as ->.
          { intros q. unfold collect. by destruct (failure q), s' as [| | | | |[|]]. }
          cbn [stages]. apply list_lookup_insert_eq. by apply lookup_lt_Some in Hk. }
        rewrite Hp, Hk in Hs'. injection Hs' as <-.
        pose proof (steps_left_step worker u c s w Hfin) as Hlt.
        rewrite Hstep in Hlt. simpl in Hlt. lia.
      * rewrite Hperm. pose proof (omap_finished_length _ k Hbefore Hnofail). lia.
    + rewrite Hk in Hs0. injection Hs0 as <-.
      assert (stages (tick k (p, w)).1 !! k = Some (task_step worker u c s w).2) as Hk1.
      { rewrite Htick. cbn [fst].
        assert (∀ s' (q : Pool), stages (collect s' q) = stages q) as ->.
        { intros s' q. unfold collect. by destruct (failure q), s' as [| | | | |[|]]. }
        cbn [stages]. apply list_lookup_insert_eq. by apply lookup_lt_Some in Hk. }
      apply (IH (tick k (p, w)) (task_step worker u c s w).2 Hok1); [|exact Hk1| |exact Hnone].
      * intros j Hj. destruct (Hbefore j Hj) as (sj & Hsj & Hfj). exists sj. split; [|done].
        by apply finished_tick.
      * pose proof (steps_left_step worker u c s w Hfin). lia.
Qed.

Lemma drain_succ k : drain (S k) = drain k ++ replicate 5 k.
Proof. unfold drain. rewrite seq_S, bind_app. f_equal. Qed.

(** Draining runs every task handed over to its end. *)
Lemma run_drain k (pw : Pool * World) :
  (0 < window)%nat → pool_ok pw.1 → (k ≤ length combinations)%nat →
  failure (run (drain k) pw).1 = None →
  ∀ j, (j < k)%nat → ∃ s, stages (run (drain k) pw).1 !! j = Some s ∧ is_finished s = true.
Proof.
  intros Hwin Hok. induction k as [|k IH]; intros Hk Hnone j Hj; [lia|].
  rewrite drain_succ, foldl_app in Hnone |- *.
  set (pw1 := run (drain k) pw) in *.
  pose proof (failure_run _ _ Hnone) as Hnone1.
  assert (pool_ok pw1.1) as Hok1 by by apply pool_ok_run.
  assert (∀ j, (j < k)%nat → ∃ s, stages pw1.1 !! j = Some s ∧ is_finished s = true)
    as Hbefore by (apply IH; [lia|done]).
  destruct (decide (j = k)) as [->|Hne].
  - assert (is_Some (stages pw1.1 !! k)) as [s Hs].
    { apply lookup_lt_is_Some. destruct Hok1 as [-> _]. lia. }
    apply (run_turns k 5 pw1 s Hwin Hok1 Hbefore Hs); [|done].
    destruct s; simpl; lia.
  - destruct (Hbefore j) as (s & Hs & Hfin); [lia|].
    exists s. split; [|done]. by apply finished_run.
Qed.

Lemma omap_replicate_queued n : omap result_of (replicate n (Queued : Stage)) = [].
Proof. induction n as [|n IH]; [done|]. exact IH. Qed.

(** What a run of the pool ends in: the task manager is in order, and
    unless a task failed every task has finished. *)
Lemma pool_run_end schedule (w : World) :
  (0 < window)%nat →
  let p := (pool_run worker u combinations window schedule w).1 in
  pool_ok p ∧
  (failure p = None → Forall (λ s, is_finished s = true) (stages p)).
Proof.
  intros Hwin p. subst p. unfold pool_run. rewrite foldl_app.
  set (start := (MkPool (replicate (length combinations) Queued) [] None, w)).
  assert (pool_ok start.1) as Hstart.
  { unfold start, pool_ok. cbn [fst stages completed failure].
    split; [apply length_replicate|]. split; [|done]. intros _.
    split; [by rewrite (omap_replicate_queued (length combinations))|].
    apply Forall_forall. by intros s [-> _]%elem_of_replicate e. }
  assert (pool_ok (run schedule start).1) as Hmid by by apply pool_ok_run.
  split; [by apply pool_ok_run|].
  intros Hnone. apply Forall_forall. intros s [j Hs]%list_elem_of_lookup.
  destruct (run_drain (length combinations) (run schedule start) Hwin Hmid) with (j := j)
    as (s' & Hs' & Hfin); [lia|done| |].
  - apply lookup_lt_Some in Hs.
    pose proof (pool_ok_run (drain (length combinations)) _ Hmid) as [Hlen _]. lia.
  - rewrite Hs in Hs'. by injection Hs' as <-.
Qed.

End run.

(** What [as_completed] gives, whatever the schedule: a result list only
    when every task has returned, and otherwise the exception of a task. *)
Lemma as_completed_outcome schedule (worker : Worker) u combinations window (w : World) :
  (0 < window)%nat →
  let tasks := stages (pool_run worker u combinations window schedule w).1 in
  match (as_completed worker u combinations window schedule w).2 with
  | inr results =>
      results ≡ₚ omap result_of tasks ∧
      Forall2 (λ c s, ∃ r, s = Finished (inr r)) combinations tasks
  | inl e =>
      ∃ i c, combinations !! i = Some c ∧ tasks !! i = Some (Finished (inl e))
  end.
Proof.
  intros Hwin tasks. subst tasks. unfold as_completed.
  destruct (pool_run_end worker u combinations window schedule w)
    as [(Hlen & Hnone & Hsome) Hend]; [done|].
  destruct (pool_run worker u combinations window schedule w) as [p w'].
  cbn [fst snd] in *. destruct (failure p) as [e|].
  + destruct (Hsome e eq_refl) as (i & Hi). exists i.
    assert (is_Some (combinations !! i)) as [c Hc].
    { apply lookup_lt_is_Some. rewrite <- Hlen. by apply lookup_lt_Some in Hi. }
    by exists c.
  + destruct (Hnone eq_refl) as [Hperm Hgood]. split; [done|].
    apply Forall2_same_length_lookup_2; [done|].
    intros i c s _ Hs.
    pose proof (proj1 (Forall_forall _ _) (Hend eq_refl) s (list_elem_of_lookup_2 _ _ _ Hs))
      as Hfin.
    pose proof (proj1 (Forall_forall _ _) Hgood s (list_elem_of_lookup_2 _ _ _ Hs))
      as Hok.
    destruct s as [| | | | |[e|r]]; try done; [by destruct (Hok e)|by exists r].
Qed.

(** The tasks that have returned give one result each. *)
Lemma omap_result_of_length (combinations : list (GridCombination V)) (tasks : list Stage) :
  Forall2 (λ c s, ∃ r, s = Finished (inr r)) combinations tasks →
  length (omap result_of tasks) = length combinations.
Proof.
  induction 1 as [|c s cs ss [r ->] _ IH]; [done|].
  cbn [omap list_omap result_of length]. by rewrite <- IH.
Qed.

(** C4, amended: fail-fast, with the exception passed on as it is.

    One thread ([max_workers <= 1]): if the combinations before [c] return
    and the worker then raises [e] on [c], whose result is not cached, the
    search returns no result list and raises [e] itself; the worker has been
    invoked on [c] last and the combinations after [c] are not started.

    The pool ([max_workers > 1]), whatever the schedule of its threads: the
    search returns a result list only when every task has returned, the list
    holding their results in the order of completion; so a search in which a
    task has raised returns no list, and the exception it raises is, as it
    is, the exception one of its tasks ended with.  A worker that raises
    ends its task with that exception.  Nowhere is anything about the
    combination added to the exception. *)
Theorem perform_grid_search_fail_fast schedule (worker : Worker) u combinations
    max_workers (w : World) :
  let search := perform_grid_search schedule worker u combinations max_workers w in
  ((max_workers ≤ 1)%Z →
   ∀ pre c post results e,
     let before := mapM (run_grid_combination worker u) pre w in
     combinations = pre ++ c :: post →
     before.2 = inr results →
     (has_result c before.1).2 = inr false →
     (worker u c (files before.1)).2 = inl e →
     search.2 = inl e ∧
     trace search.1 = trace before.1 ++ [c] ∧
     files search.1 = (worker u c (files before.1)).1) ∧
  ((max_workers > 1)%Z →
   let tasks := stages (pool_run worker u combinations (Z.to_nat max_workers) schedule w).1 in
   match search.2 with
   | inr results =>
       results ≡ₚ omap result_of tasks ∧
       Forall2 (λ c s, ∃ r, s = Finished (inr r)) combinations tasks
   | inl e =>
       ∃ i c, combinations !! i = Some c ∧ tasks !! i = Some (Finished (inl e))
   end) ∧
  (∀ c (w0 : World) e,
     (worker u c (files w0)).2 = inl e →
     (task_step worker u c Invoked w0).2 = Finished (inl e)).
Proof.
  intros search. split; [|split].
  - intros Hone pre c post results e before Horder Hpre Hmiss Hraise.
    destruct before as [w1 [e'|rs]] eqn:Hbefore; [done|]. simpl in *.
    injection Hpre as ->.
    pose proof (has_result_state c w1) as Hstate.
    destruct (has_result c w1) as [w1' [e'|found]] eqn:Hhas; [done|].
    simpl in *. subst w1'. injection Hmiss as ->.
    destruct (worker u c (files w1)) as [f r] eqn:Hworker. simpl in Hraise. subst r.
    assert (mapM (run_grid_combination worker u) (pre ++ c :: post) w
            = (MkWorld f (trace w1 ++ [c]), inl e)) as Hrun.
    { eapply mapM_abort; [exact Hbefore|].
      unfold run_grid_combination. steps Hhas.
      apply bind_raise. rewrite call_worker_eq. by rewrite Hworker. }
    subst search. unfold perform_grid_search.
    rewrite bool_decide_eq_false_2 by lia. by rewrite Horder, Hrun.
  - intros Hmany tasks. subst search tasks. unfold perform_grid_search.
    rewrite bool_decide_eq_true_2 by done.
    apply as_completed_outcome. lia.
  - intros c w0 e Hraise. cbn [task_step]. unfold on_files.
    by destruct (worker u c (files w0)) as [f [e'|r]]; simplify_eq/=.
Qed.

End facts.

(** *** Worked examples on the scenarios *)

Import GridScenarios.

Lemma GridCombination_eq_by_parameters_witness :
  GridCombination_eq c7_left c7_right = true ∧
  ∃ h, GridCombination_hash c7_left = inr h ∧ GridCombination_hash c7_right = inr h.
Proof.
  split; [reflexivity|].
  destruct (GridCombination_hash c7_left) as [e|h] eqn:Hleft; [by vm_compute in Hleft|].
  destruct (GridCombination_hash c7_right) as [e|k] eqn:Hright; [by vm_compute in Hright|].
  exists h. split; [done|]. f_equal. symmetry.
  by apply (GridCombination_eq_by_parameters c7_left c7_right).
Defined.

(** A list can be put in a combination, but such a combination has no hash
    and no result path. *)
Lemma GridCombination_of_list_value :
  GridCombination_hash (combination_a tmp_results (VList [1; 2]%Z)) = inl TypeError ∧
  get_full_result_path (combination_a tmp_results (VList [1; 2]%Z)) = inl NotImplementedError.
Proof. split; reflexivity. Qed.

Lemma prepare_grid_combinations_cartesian_witness :
  ∃ combinations,
    (prepare_grid_combinations grid_ab tmp_results false empty_world).2
      = inr combinations ∧
    length combinations = 4%nat ∧
    (∀ ps, ps ∈ parameters <$> combinations ↔
           Forall2 (λ p item, name p = item.1 ∧ value p ∈ item.2) ps grid_ab) ∧
    Forall (λ c, result_path c = tmp_results ∧ name <$> parameters c = ["a"; "b"] ∧
                 ∀ shuffled, shuffled ≡ₚ parameters c →
                             sort_by_order ["a"; "b"] shuffled = inr (parameters c))
           combinations.
Proof.
  apply (prepare_grid_combinations_cartesian (State:=Z) (TradeSummary:=()) (Metrics:=())
           grid_ab tmp_results false empty_world).
  - done.
  - compute_done.
  - repeat constructor; compute_done.
  - vm_compute. reflexivity.
Defined.

(** A grid of boolean flags is rejected, and so is the grid without names:
    the claim of C3 fails on them. *)
Lemma prepare_grid_combinations_rejects_bool_grid :
  (prepare_grid_combinations [("a", [VBool true; VBool false])] tmp_results false
     empty_world).2
  = inl NotImplementedError ∧
  (prepare_grid_combinations (V:=pyval) [] tmp_results false empty_world).2
  = inl AssertionError.
Proof. split; vm_compute; reflexivity. Qed.

Lemma prepare_grid_combinations_validation_witness :
  (prepare_grid_combinations grid_collide tmp_results false empty_world).2
  = inr [combination_a tmp_results (VInt 1); combination_a tmp_results (VStr "1")].
Proof.
  etrans.
  - apply (prepare_grid_combinations_validation (State:=Z) (TradeSummary:=()) (Metrics:=())
             grid_collide tmp_results false empty_world).
    + compute_done.
    + vm_compute. reflexivity.
  - vm_compute. reflexivity.
Defined.

(** Two distinct combinations with one and the same result directory come
    out of the preparation without an error: the claim of C5 fails. *)
Lemma prepare_grid_combinations_accepts_collision :
  ∃ c1 c2,
    (prepare_grid_combinations grid_collide tmp_results false empty_world).2
      = inr [c1; c2] ∧
    GridCombination_eq c1 c2 = false ∧
    get_full_result_path c1 = inr (MkPath true ["tmp"; "results"; "a=1"]) ∧
    get_full_result_path c2 = inr (MkPath true ["tmp"; "results"; "a=1"]).
Proof.
  exists (combination_a tmp_results (VInt 1)), (combination_a tmp_results (VStr "1")).
  repeat split; vm_compute; reflexivity.
Qed.

Lemma prepare_grid_combinations_clear_not_empty_witness :
  prepare_grid_combinations [("a", [VInt 1])] tmp_results true world_cached
  = (world_cached, inl DirectoryNotEmpty).
Proof.
  apply (prepare_grid_combinations_clear_not_empty (State:=Z) (TradeSummary:=()) (Metrics:=())).
  - done.
  - vm_compute. reflexivity.
  - vm_compute. reflexivity.
Defined.

Lemma run_grid_combination_misses_artifact_witness :
  trace (run_grid_combination fresh_worker () (combination_a results (VInt 1))
           world_relative).1
    = [combination_a results (VInt 1)] ∧
  (run_grid_combination fresh_worker () (combination_a results (VInt 1)) world_relative).2
    = inr (fresh_result (combination_a results (VInt 1))).
Proof.
  split; [|vm_compute; reflexivity].
  apply (run_grid_combination_misses_artifact fresh_worker () (combination_a results (VInt 1))
           (MkPath false ["results"; "a=1"])
           (old_result (combination_a results (VInt 1))) world_relative).
  - vm_compute. reflexivity.
  - vm_compute. reflexivity.
  - vm_compute. reflexivity.
Defined.

(** Under the absolute path the same call is served from the cache. *)
Lemma run_grid_combination_absolute_hit :
  (run_grid_combination fresh_worker () (combination_a tmp_results (VInt 1)) world_cached).2
  = inr (set_cached true (old_result (combination_a tmp_results (VInt 1)))) ∧
  trace (run_grid_combination fresh_worker () (combination_a tmp_results (VInt 1))
           world_cached).1 = [].
Proof. split; vm_compute; reflexivity. Qed.

Lemma perform_grid_search_fail_fast_witness :
  (perform_grid_search [] picky_worker () three_combinations 1 world_with_root).2
    = inl (Raised "division by zero") ∧
  trace (perform_grid_search [] picky_worker () three_combinations 1 world_with_root).1
    = [combination_a tmp_results (VInt 1); combination_a tmp_results (VInt 2)] ∧
  ∃ i c,
    three_combinations !! i = Some c ∧
    stages (pool_run picky_worker () three_combinations (Z.to_nat 16) [0; 0; 1; 1; 2; 2]%nat
              world_with_root).1 !! i
      = Some (Finished (inl (Raised "division by zero"))) ∧
    (task_step picky_worker () (combination_a tmp_results (VInt 2)) Invoked world_with_root).2
      = Finished (inl (Raised "division by zero")).
Proof.
  destruct (perform_grid_search_fail_fast [] picky_worker () three_combinations 1
              world_with_root) as (Hone & _ & Hstep).
  destruct (Hone ltac:(lia) [combination_a tmp_results (VInt 1)]
              (combination_a tmp_results (VInt 2))
              [combination_a tmp_results (VInt 3)]
              [fresh_result (combination_a tmp_results (VInt 1))]
              (Raised "division by zero")) as (Hraise & Htrace & _).
  - reflexivity.
  - vm_compute. reflexivity.
  - vm_compute. reflexivity.
  - vm_compute. reflexivity.
  - split; [exact Hraise|]. split; [rewrite Htrace; vm_compute; reflexivity|].
    destruct (perform_grid_search_fail_fast [0; 0; 1; 1; 2; 2]%nat picky_worker ()
                three_combinations 16 world_with_root) as (_ & Hpool & _).
    specialize (Hpool ltac:(lia)). cbn zeta in Hpool.
    assert ((perform_grid_search [0; 0; 1; 1; 2; 2]%nat picky_worker () three_combinations 16
               world_with_root).2 = inl (Raised "division by zero")) as Hsearch.
    { vm_compute. reflexivity. }
    rewrite Hsearch in Hpool. destruct Hpool as (i & c & Hc & Hi).
    exists i, c. split; [exact Hc|]. split; [exact Hi|].
    apply Hstep. vm_compute. reflexivity.
Defined.

(** The exception that reaches the caller is the worker's, whichever
    combination failed: searches that fail on different combinations raise
    the same exception, with one worker or with several, so that no reading
    of the exception gives the offending combination in both.  The claim of
    C4 that the raise identifies the offending combination fails. *)
Lemma perform_grid_search_raise_is_anonymous :
  let search max_workers c :=
    (perform_grid_search [] failing_worker () [combination_a tmp_results c]
       max_workers world_with_root).2 in
  search 1%Z (VInt 1) = inl (Raised "division by zero") ∧
  search 1%Z (VInt 2) = inl (Raised "division by zero") ∧
  search 16%Z (VInt 1) = inl (Raised "division by zero") ∧
  search 16%Z (VInt 2) = inl (Raised "division by zero") ∧
  ∀ offender : pyexn → GridCombination pyval,
    ¬ (∀ n, n ∈ [1; 2]%Z →
         ∃ e, search 1%Z (VInt n) = inl e ∧
              GridCombination_eq (offender e) (combination_a tmp_results (VInt n)) = true).
Proof.
  intros search. repeat split; try (vm_compute; reflexivity).
  intros offender Hall.
  destruct (Hall 1%Z) as (e1 & Hraise1 & Heq1); [set_solver|].
  destruct (Hall 2%Z) as (e2 & Hraise2 & Heq2); [set_solver|].
  vm_compute in Hraise1, Hraise2. injection Hraise1 as <-. injection Hraise2 as <-.
  unfold GridCombination_eq in Heq1, Heq2.
  destruct (offender (Raised "division by zero")) as [rp [|[nm v] [|? ?]]];
    simpl in Heq1, Heq2; [done| |by rewrite andb_false_r in Heq1].
  apply andb_true_iff in Heq1 as [[_ Hv1]%andb_true_iff _].
  apply andb_true_iff in Heq2 as [[_ Hv2]%andb_true_iff _].
  destruct v as [k| |[]| |]; simpl in *; try done.
  apply Z.eqb_eq in Hv1, Hv2. lia.
Qed.

(** The pool has every task in the hands of a thread before the failure is
    seen: with the threads taking turns the worker is invoked on all three
    combinations, although it raises on the second. *)
Lemma perform_grid_search_pool_starts_every_task :
  let search := perform_grid_search [0; 0; 1; 1; 2; 2]%nat picky_worker ()
                  three_combinations 16 world_with_root in
  search.2 = inl (Raised "division by zero") ∧
  trace search.1 = three_combinations.
Proof. split; vm_compute; reflexivity. Qed.

End GridSearchFacts.

(** ** The indicator layer *)

Module IndicatorFacts.
Import Python GridSearch Indicator PythonFacts.

Section facts.
Context {V : Type} `{!PyObject V} `{!PathSafety}.
Context {Candles Data StrategyParameters : Type}.

#[local] Abbreviation Defn := (IndicatorDefinition V Candles Data).
#[local] Abbreviation Function := (IndicatorFunction V Candles Data).
#[local] Abbreviation Key := (IndicatorKey V Candles Data).
#[local] Abbreviation Universe := (TradingStrategyUniverse Candles).
#[local] Abbreviation World := (world Data ()).

(** *** Definitions and names *)

(** C8: the construction of an indicator definition checks the parameter
    names against the function's signature.  The offending names are the
    parameter keys the signature does not accept.  If there is none the
    definition is constructed and [add] registers it; if there is one, the
    construction fails with a signature mismatch carrying exactly the
    offending names, and [add] leaves the indicator set as it was. *)
Theorem define_checks_signature (nm : string) (fn : Function)
    (params : list (string * V)) (s : IndicatorSet V Candles Data) :
  let offending := filter (λ k, k ∉ signature fn) params.*1 in
  (∀ k, k ∈ offending ↔ k ∈ params.*1 ∧ k ∉ signature fn) ∧
  (offending = [] →
     define nm fn params = inr (MkIndicatorDefinition nm fn params) ∧
     add nm fn params s = (register nm (MkIndicatorDefinition nm fn params) s, inr ())) ∧
  (offending ≠ [] →
     define nm fn params = inl (IndicatorFunctionSignatureMismatch offending) ∧
     add nm fn params s = (s, inl (IndicatorFunctionSignatureMismatch offending))).
Proof.
  intros offending. split; [|split].
  - intros k. unfold offending. rewrite list_elem_of_filter. tauto.
  - intros Hnone. unfold add, define. fold offending. by rewrite Hnone.
  - intros Hsome. unfold add, define. fold offending.
    by destruct offending.
Qed.

Lemma split_sep_plain s : has_sep s = false → split_sep s = [s].
Proof.
  induction s as [|c s IH]; [done|]. simpl.
  intros [Hc Hs]%orb_false_iff. rewrite Hc. by rewrite (IH Hs).
Qed.

Lemma parse_path_plain s :
  has_sep s = false → s ≠ "" → s ≠ "." → parse_path s = MkPath false [s].
Proof.
  intros Hs Hne Hdot. unfold parse_path. rewrite (split_sep_plain _ Hs). f_equal.
  - destruct s as [|c s]; [done|]. simpl in *. by apply orb_false_iff in Hs as [-> _].
  - rewrite filter_cons_True by done. done.
Qed.

Lemma length_append (s t : string) :
  String.length (s +:+ t) = (String.length s + String.length t)%nat.
Proof. induction s as [|c s IH]; [done|]. simpl. by rewrite IH. Qed.

Lemma append_assoc (s t u : string) : (s +:+ t) +:+ u = s +:+ t +:+ u.
Proof.
  induction s as [|c s IH]; [done|].
  change (String c ((s +:+ t) +:+ u) = String c (s +:+ t +:+ u)). by rewrite IH.
Qed.

Lemma concat_pairs_text (params : list (string * V)) :
  String.concat "," ((λ kv : string * V, kv.1 +:+ "=" +:+ py_str kv.2) <$> params)
  = pairs_text params.
Proof.
  induction params as [|[k v] [|kv rest] IH]; [done..|].
  cbn [fmap list_fmap String.concat pairs_text] in *. rewrite IH.
  simpl. by rewrite !append_assoc.
Qed.

Lemma has_sep_append (s t : string) : has_sep (s +:+ t) = has_sep s || has_sep t.
Proof.
  induction s as [|c s IH]; [done|].
  change (has_sep (String c (s +:+ t)) = has_sep (String c s) || has_sep t).
  simpl. by rewrite IH, orb_assoc.
Qed.

Lemma has_unsafe_append (s t : string) :
  has_unsafe (s +:+ t) = has_unsafe s || has_unsafe t.
Proof.
  induction s as [|c s IH]; [done|].
  change (has_unsafe (String c (s +:+ t)) = has_unsafe (String c s) || has_unsafe t).
  simpl. by rewrite IH, orb_assoc.
Qed.

(** A text without unsafe characters is left as it is. *)
Lemma escape_unsafe_plain (s : string) :
  has_unsafe s = false → escape_unsafe s = inr s.
Proof.
  induction s as [|c s IH]; [done|]. simpl.
  intros [Hc Hs]%orb_false_iff. by rewrite Hc, (IH Hs).
Qed.

(** What comes out holds no unsafe character. *)
Lemma escape_unsafe_safe `{!PathSafetyOk} (s t : string) :
  escape_unsafe s = inr t → has_unsafe t = false.
Proof.
  revert t. induction s as [|c s IH]; intros t; simpl.
  { by intros [= <-]. }
  destruct (unsafe c) eqn:Hc.
  - destruct (escape c) as [e|h] eqn:Hh; [done|]. simpl.
    destruct (escape_unsafe s) as [e|t']; [done|]. simpl. intros [= <-].
    by rewrite has_unsafe_append, (escape_safe c h Hh), (IH t').
  - simpl. destruct (escape_unsafe s) as [e|t']; [done|]. simpl. intros [= <-].
    change (has_unsafe (String c t') = false). simpl. by rewrite Hc, (IH t').
Qed.

Lemma has_unsafe_sep `{!PathSafetyOk} (s : string) :
  has_unsafe s = false → has_sep s = false.
Proof.
  induction s as [|c s IH]; [done|]. simpl.
  intros [Hc Hs]%orb_false_iff. rewrite (IH Hs), orb_false_r.
  apply bool_decide_eq_false_2. intros ->. by rewrite unsafe_sep in Hc.
Qed.

(** C9, amended: the naming of cache artifacts.  For a definition whose text
    [name(k=v,...)], the parameters in the insertion order of the mapping,
    holds no character unsafe for a file-system path, the rendered fragment
    is that text.  A definition whose text holds an unsafe character (the
    path separator is one) is not rendered as that text: it is escaped or
    rejected.  Whenever the fragment renders, the universe key is a single
    path component and the tickers hold no separator, the artifact path is
    the storage root, then the universe key, then
    [<fragment>-<BASE>-<QUOTE>.parquet].  Both are functions of their
    arguments alone: neither takes nor returns the file system. *)
Theorem indicator_naming `{!PathSafetyOk} (storage : IndicatorStorage) (ind : Defn)
    (pair : TradingPairIdentifier) :
  (has_unsafe (fragment_text ind) = false →
   render_path_fragment ind = inr (fragment_text ind)) ∧
  (has_unsafe (fragment_text ind) = true →
   render_path_fragment ind ≠ inr (fragment_text ind)) ∧
  (∀ fragment,
     render_path_fragment ind = inr fragment →
     has_sep (universe_key storage) = false →
     universe_key storage ≠ "" → universe_key storage ≠ "." →
     has_sep (token_symbol (base pair)) = false →
     has_sep (token_symbol (quote pair)) = false →
     get_indicator_path storage ind pair
     = inr (MkPath (is_absolute (path storage))
                   (parts (path storage)
                      ++ [universe_key storage; artifact_name fragment pair]))).
Proof.
  assert (render_path_fragment ind = escape_unsafe (fragment_text ind)) as Hrender.
  { unfold render_path_fragment, fragment_text. by rewrite concat_pairs_text. }
  split; [|split].
  - intros Hsafe. rewrite Hrender. by apply escape_unsafe_plain.
  - intros Hunsafe Heq. rewrite Hrender in Heq.
    apply escape_unsafe_safe in Heq. congruence.
  - intros fragment Hfragment Hkey Hk1 Hk2 Hbase Hquote.
    unfold get_indicator_path. rewrite Hfragment.
    cbn [mbind exn_bind mret exn_ret]. fold (artifact_name fragment pair). f_equal.
    assert (has_sep (artifact_name fragment pair) = false) as Hfile.
    { rewrite Hrender in Hfragment. apply escape_unsafe_safe, has_unsafe_sep in Hfragment.
      unfold artifact_name. rewrite !has_sep_append, Hfragment, Hbase, Hquote. done. }
    assert (2 ≤ String.length (artifact_name fragment pair))%nat as Hlen.
    { unfold artifact_name. rewrite !length_append. simpl. lia. }
    rewrite (parse_path_plain (universe_key storage)) by done.
    rewrite (parse_path_plain (artifact_name fragment pair)); [| done | |].
    + unfold joinpath. simpl. by rewrite <- app_assoc.
    + intros Heq. rewrite Heq in Hlen. simpl in Hlen. lia.
    + intros Heq. rewrite Heq in Hlen. simpl in Hlen. lia.
Qed.

(** *** The cache *)

Lemma probe_cases storage (key : Key) (w : World) :
  probe storage key w =
    (w, match key_path storage key with
        | inl e => inl e
        | inr p =>
            match lookup_path p w with
            | None => inr None
            | Some Dir => inl IsADirectoryError
            | Some (File d) => inr (Some d)
            end
        end).
Proof.
  unfold probe, has, load. fold (key_path storage key).
  destruct (key_path storage key) as [e|p]; [done|].
  unfold lift, path_exists, read_pickle, gets, mret, M_ret, mbind, M_bind.
  destruct (lookup_path p w) as [n|] eqn:Hl.
  - rewrite bool_decide_eq_true_2 by eauto. rewrite Hl. by destruct n.
  - rewrite bool_decide_eq_false_2; [done|]. by intros [? ?].
Qed.

Lemma mapM_probe storage (keys : list Key) (w : World) :
  (mapM (probe storage) keys w).1 = w ∧
  ∀ found, (mapM (probe storage) keys w).2 = inr found →
    Forall2 (λ k o, ∀ d, o = Some d → key_stored storage w k d) keys found.
Proof.
  induction keys as [|k keys [IHw IH]].
  - split; [done|]. intros found [= <-]. constructor.
  - rewrite mapM_cons.
    destruct (probe storage k w) as [w0 [e|o]] eqn:Hp; pose proof Hp as Hcase;
      rewrite probe_cases in Hcase; injection Hcase as <- Hcase.
    { by stops Hp. }
    steps Hp.
    destruct (mapM (probe storage) keys w) as [w' [e|found']] eqn:Hrest; simpl in *.
    { by stops Hrest. }
    steps Hrest. split; [done|].
    intros found [= <-]. constructor; [|by apply IH].
    intros d ->. unfold key_stored, stored.
    destruct (key_path storage k) as [e|p]; [done|]. exists p. split; [done|].
    by destruct (lookup_path p w) as [[|d']|]; simplify_eq.
Qed.

Lemma mapM_probe_stored storage (rs : list (Key * IndicatorResult Data)) (w : World) :
  Forall (λ kr, key_stored storage w kr.1 (data kr.2)) rs →
  mapM (probe storage) rs.*1 w = (w, inr ((λ kr, Some (data kr.2)) <$> rs)).
Proof.
  induction 1 as [|kr rs (p & Hp & Hkr) _ IH]; [done|].
  cbn [fmap list_fmap]. rewrite mapM_cons.
  rewrite (bind_ok _ _ _ w (Some (data kr.2))).
  - by steps IH.
  - rewrite probe_cases, Hp. unfold stored in Hkr. by rewrite Hkr.
Qed.

(** A successful [save] stores the output and disturbs no other artifact. *)
Lemma save_ok storage (key : Key) (d : Data) (w w' : World) :
  save storage key d w = (w', inr ()) →
  ∃ p, key_path storage key = inr p ∧
       stored w' p d ∧
       (∀ q d', q ≠ p → stored w q d' → stored w' q d').
Proof.
  unfold save. fold (key_path storage key).
  destruct (key_path storage key) as [e|p]; [done|].
  change (lift (inr p) ≫= ?f) with (f p). cbn beta.
  intros Hsave. exists p. split; [done|].
  destruct (mkdir_parents (parent p) w) as [w0 [e|[]]] eqn:Hmk.
  { by stops Hmk in Hsave. }
  steps Hmk in Hsave.
  apply mkdir_parents_ok in Hmk as (_ & Hfiles & _).
  unfold write_pickle in Hsave.
  destruct (lookup_path (parent p) w0) as [[|?]|]; try done.
  assert (parts p ≠ []) as Hp.
  { intros Hnil. unfold lookup_path in Hsave. by rewrite Hnil in Hsave. }
  assert (w' = set_files (<[p := File d]>) w0) as ->.
  { destruct (lookup_path p w0) as [[|?]|]; by simplify_eq. }
  unfold stored. split.
  - rewrite lookup_path_files by done. simpl. apply lookup_insert_eq.
  - intros q d' Hq Hstored.
    assert (parts q ≠ []) as Hparts.
    { intros Hnil. unfold lookup_path in Hstored. by rewrite Hnil in Hstored. }
    rewrite lookup_path_files in Hstored |- * by done. simpl.
    rewrite lookup_insert_ne by done. by rewrite Hfiles, Hstored.
Qed.

Lemma settle_ok (universe : Universe) storage (entry : Key * option Data)
    (w w' : World) (y : Key * IndicatorResult Data) :
  (∀ d, entry.2 = Some d → key_stored storage w entry.1 d) →
  settle universe storage entry w = (w', inr y) →
  y.1 = entry.1 ∧
  key_stored storage w' entry.1 (data y.2) ∧
  (∀ q d, inr q ≠ key_path storage entry.1 → stored w q d → stored w' q d).
Proof.
  intros Hentry. unfold settle. destruct entry as [k [d|]]; simpl in *.
  - intros [= <- <-]. simpl. split; [done|]. split; [by apply Hentry|done].
  - intros Hsettle.
    destruct (save storage k (call (func k.2) (candles universe k.1) (parameters k.2)) w)
      as [w0 [e|[]]] eqn:Hsave.
    { by stops Hsave in Hsettle. }
    steps Hsave in Hsettle. injection Hsettle as <- <-.
    apply save_ok in Hsave as (p & Hp & Hst & Hother).
    split; [done|]. split; [by exists p|].
    intros q d Hq. apply Hother. intros ->. by rewrite Hp in Hq.
Qed.

Lemma mapM_settle (universe : Universe) storage (l : list (Key * option Data))
    (w w' : World) (rs : list (Key * IndicatorResult Data)) :
  NoDup (key_path storage <$> l.*1) →
  Forall (λ entry, ∀ d, entry.2 = Some d → key_stored storage w entry.1 d) l →
  mapM (settle universe storage) l w = (w', inr rs) →
  rs.*1 = l.*1 ∧
  Forall (λ kr, key_stored storage w' kr.1 (data kr.2)) rs ∧
  (∀ q d, inr q ∉ key_path storage <$> l.*1 → stored w q d → stored w' q d).
Proof.
  revert w rs. induction l as [|entry l IH]; intros w rs Hnd Hall Hrun.
  - injection Hrun as <- <-. done.
  - rewrite mapM_cons in Hrun. cbn [fmap list_fmap] in Hnd.
    apply NoDup_cons in Hnd as [Hfresh Hnd].
    apply Forall_cons in Hall as [Hentry Hall].
    destruct (settle universe storage entry w) as [w0 [e|y]] eqn:Hsettle.
    { by stops Hsettle in Hrun. }
    steps Hsettle in Hrun.
    destruct (mapM (settle universe storage) l w0) as [w1 [e|ys]] eqn:Hrest.
    { by stops Hrest in Hrun. }
    steps Hrest in Hrun. injection Hrun as <- <-.
    destruct (settle_ok _ _ _ _ _ _ Hentry Hsettle) as (Hy & (p & Hp & Hst) & Hkeep).
    destruct (IH w0 ys Hnd) as (Hys & Hsts & Hkeep'); [|done|].
    { apply Forall_forall. intros entry' Hin d Hd.
      destruct (proj1 (Forall_forall _ _) Hall entry' Hin d Hd) as (p' & Hp' & Hst').
      exists p'. split; [done|]. apply Hkeep; [|done].
      intros Heq. apply Hfresh. rewrite <- Heq, <- Hp'.
      apply list_elem_of_fmap. exists entry'.1. split; [done|].
      apply list_elem_of_fmap. by exists entry'. }
    split; [|split].
    + cbn [fmap list_fmap]. by rewrite Hy, Hys.
    + constructor; [|done]. rewrite Hy. exists p. split; [done|].
      apply Hkeep'; [|done]. by rewrite <- Hp.
    + intros q d Hq Hstored. cbn [fmap list_fmap] in Hq.
      apply not_elem_of_cons in Hq as [Hq1 Hq2]. by apply Hkeep', Hkeep.
Qed.

Lemma zip_keys_found (rs : list (Key * IndicatorResult Data)) :
  zip rs.*1 ((λ kr, Some (data kr.2)) <$> rs)
  = (λ kr, (kr.1, Some (data kr.2))) <$> rs.
Proof. induction rs as [|kr rs IH]; [done|]. cbn. by rewrite IH. Qed.

Lemma calculate_and_load_indicators_keys (universe : Universe) storage
    (create_indicators : CreateIndicators V Candles Data StrategyParameters)
    (parameters : StrategyParameters) (keys : list Key) (w : World) :
  indicator_keys universe create_indicators parameters = inr keys →
  calculate_and_load_indicators universe storage create_indicators parameters w
  = (found ← mapM (probe storage) keys; mapM (settle universe storage) (zip keys found)) w.
Proof. intros Hkeys. unfold calculate_and_load_indicators. by rewrite Hkeys. Qed.

Lemma Forall2_zip_entries (P : Key → option Data → Prop) keys found :
  Forall2 P keys found → Forall (λ entry, P entry.1 entry.2) (zip keys found).
Proof. induction 1; by constructor. Qed.

Lemma second_call_cached (universe : Universe) storage
    (first : list (Key * IndicatorResult Data)) (w1 : World) :
  Forall (λ kr, key_stored storage w1 kr.1 (data kr.2)) first →
  (found ← mapM (probe storage) first.*1;
   mapM (settle universe storage) (zip first.*1 found)) w1
  = (w1, inr ((λ kr, (kr.1, MkIndicatorResult (data kr.2) true)) <$> first)).
Proof.
  intros Hst. steps (mapM_probe_stored _ _ _ Hst).
  rewrite zip_keys_found.
  set (g := λ entry : Key * option Data,
         ((entry.1, MkIndicatorResult
             (default (call (func entry.1.2) (candles universe entry.1.1)
                            (Indicator.parameters entry.1.2)) entry.2) true)
          : Key * IndicatorResult Data)).
  etrans; [apply (mapM_pure _ g)|].
  - apply Forall_fmap, Forall_forall. by intros kr _.
  - by rewrite <- list_fmap_compose.
Qed.

Lemma first_call_stores (universe : Universe) storage (keys : list Key) (w w1 : World)
    (first : list (Key * IndicatorResult Data)) :
  NoDup (key_path storage <$> keys) →
  (found ← mapM (probe storage) keys; mapM (settle universe storage) (zip keys found)) w
    = (w1, inr first) →
  first.*1 = keys ∧ Forall (λ kr, key_stored storage w1 kr.1 (data kr.2)) first.
Proof.
  intros Hnd Hrun.
  destruct (mapM_probe storage keys w) as [Hw Hfound].
  destruct (mapM (probe storage) keys w) as [w0 [e|found]] eqn:Hprobe.
  { by stops Hprobe in Hrun. }
  simpl in Hw. subst w0. steps Hprobe in Hrun.
  specialize (Hfound found eq_refl).
  assert ((zip keys found).*1 = keys) as Hfst.
  { apply fst_zip. by rewrite (Forall2_length _ _ _ Hfound). }
  rewrite <- Hfst in Hnd.
  destruct (mapM_settle _ _ _ _ _ _ Hnd (Forall2_zip_entries _ _ _ Hfound) Hrun)
    as (Hrs & Hst & _).
  by rewrite Hrs, Hfst.
Qed.

(** C1, amended: recomputation is idempotent when no two keys share an
    artifact.  If the artifact paths of the (pair, indicator) keys are
    pairwise distinct and a first call of [calculate_and_load_indicators]
    returns, then a second call with the same arguments, on the cache
    directory as the first call left it, returns for the same keys in the
    same order the same data with the cached flag set, and leaves the cache
    directory as it is. *)
Theorem calculate_and_load_indicators_idempotent (universe : Universe) storage
    (create_indicators : CreateIndicators V Candles Data StrategyParameters)
    (parameters : StrategyParameters) (keys : list Key) (w : World)
    (first : list (Key * IndicatorResult Data)) :
  indicator_keys universe create_indicators parameters = inr keys →
  NoDup (key_path storage <$> keys) →
  (calculate_and_load_indicators universe storage create_indicators parameters w).2
    = inr first →
  let w1 := (calculate_and_load_indicators universe storage create_indicators parameters w).1 in
  let second := calculate_and_load_indicators universe storage create_indicators parameters w1 in
  second.2 = inr ((λ kr, (kr.1, MkIndicatorResult (data kr.2) true)) <$> first) ∧
  second.1 = w1 ∧
  first.*1 = keys.
Proof.
  intros Hkeys Hnd Hfirst w1 second. subst second w1.
  rewrite !(calculate_and_load_indicators_keys _ _ _ _ _ _ Hkeys) in *.
  destruct ((found ← mapM (probe storage) keys;
             mapM (settle universe storage) (zip keys found)) w) as [w1 r] eqn:Hrun.
  simpl in *. subst r.
  destruct (first_call_stores _ _ _ _ _ _ Hnd Hrun) as [<- Hst].
  by rewrite (second_call_cached universe storage first w1 Hst).
Qed.

End facts.

(** *** Worked examples on the scenarios *)

Import IndicatorScenarios.

Lemma define_checks_signature_witness :
  define "sma" sma [("lengthx", VInt 21)]
    = inl (IndicatorFunctionSignatureMismatch ["lengthx"]) ∧
  add "sma" sma [("lengthx", VInt 21)] []
    = ([], inl (IndicatorFunctionSignatureMismatch ["lengthx"])) ∧
  define "sma" sma [("length", VInt 21)]
    = inr (MkIndicatorDefinition "sma" sma [("length", VInt 21)]).
Proof.
  destruct (define_checks_signature "sma" sma [("lengthx", VInt 21)] [])
    as (_ & _ & Hbad).
  destruct (define_checks_signature "sma" sma [("length", VInt 21)] [])
    as (_ & Hgood & _).
  destruct Hbad as [Hdefine Hadd]; [done|].
  destruct Hgood as [Hdefine' _]; [done|].
  split; [exact Hdefine|]. split; [exact Hadd|exact Hdefine'].
Defined.

#[global] Instance reject_unsafe_ok : PathSafetyOk.
Proof. split; [reflexivity|]. by intros c t. Qed.

Lemma indicator_naming_witness :
  render_path_fragment sma_21_1 = inr "sma(length=21,offset=1)" ∧
  get_indicator_path test_storage sma_21_1 weth_usdc
  = inr (MkPath true
           ["tmp"; "pytest"; "ethereum,1d,WETH-USDC-WBTC-USDC,2021-06-01-2021-12-31";
            "sma(length=21,offset=1)-WETH-USDC.parquet"]).
Proof.
  destruct (indicator_naming test_storage sma_21_1 weth_usdc) as (Hsafe & _ & Hpath).
  assert (render_path_fragment sma_21_1 = inr "sma(length=21,offset=1)") as Hfragment.
  { etrans; [apply Hsafe|]; vm_compute; reflexivity. }
  split; [exact Hfragment|].
  etrans.
  - apply (Hpath "sma(length=21,offset=1)"); [exact Hfragment|..]; try done;
      vm_compute; reflexivity.
  - vm_compute. reflexivity.
Defined.

(** A name with a path separator is not rendered as it is written, whatever
    is taken as unsafe beside the separator and however it is escaped or
    rejected; here it is rejected.  The claim of C9, which is for every
    definition, fails on it. *)
Lemma indicator_naming_unsafe_name :
  fragment_text sma_slash = "sma/fast(length=21)" ∧
  (∀ (safety : PathSafety), @PathSafetyOk safety →
     @render_path_fragment pyval _ safety Z (list Z) sma_slash
     ≠ inr "sma/fast(length=21)") ∧
  render_path_fragment sma_slash = inl (Raised "unsafe character").
Proof.
  split; [vm_compute; reflexivity|]. split; [|vm_compute; reflexivity].
  intros safety Hok Heq.
  assert (@render_path_fragment pyval _ safety Z (list Z) sma_slash
          = @escape_unsafe safety "sma/fast(length=21)") as Hrender by reflexivity.
  rewrite Hrender in Heq.
  apply (@escape_unsafe_safe safety Hok) in Heq.
  apply (@has_unsafe_sep safety Hok) in Heq. by vm_compute in Heq.
Qed.

Lemma calculate_and_load_indicators_idempotent_witness :
  ∃ first,
    (calculate_and_load_indicators test_universe test_storage create_indicators
       my_parameters empty_cache).2 = inr first ∧
    length first = 6%nat ∧
    (calculate_and_load_indicators test_universe test_storage create_indicators my_parameters
       (calculate_and_load_indicators test_universe test_storage create_indicators
          my_parameters empty_cache).1).2
    = inr ((λ kr, (kr.1, MkIndicatorResult (data kr.2) true)) <$> first).
Proof.
  eexists. split; [vm_compute; reflexivity|]. split; [reflexivity|].
  eapply (calculate_and_load_indicators_idempotent test_universe test_storage
            create_indicators my_parameters).
  - vm_compute. reflexivity.
  - compute_done.
  - vm_compute. reflexivity.
Defined.

(** On the twin universe the second call does not return the first call's
    data: both keys are served from the one artifact, which holds what was
    computed for the second pair.  The claim of C1 fails. *)
Lemma calculate_and_load_indicators_shared_artifact :
  let first := calculate_and_load_indicators twin_universe twin_storage one_indicator
                 my_parameters empty_cache in
  let second := calculate_and_load_indicators twin_universe twin_storage one_indicator
                  my_parameters first.1 in
  weth_usdc ≠ weth_usdc_other_pool ∧
  get_indicator_path twin_storage sma_short_12 weth_usdc
    = get_indicator_path twin_storage sma_short_12 weth_usdc_other_pool ∧
  outputs first.2 = inr [([3000; 12]%Z, false); ([3100; 12]%Z, false)] ∧
  outputs second.2 = inr [([3100; 12]%Z, true); ([3100; 12]%Z, true)].
Proof. split; [done|]. repeat split; vm_compute; reflexivity. Qed.

End IndicatorFacts.

(** ** Grid search: further properties of the code

    Round trips, resumption, what the functions leave alone, and how the
    results of [prepare_grid_combinations] are laid out. *)

Module GridSearchProperties.
Import Python GridSearch PythonFacts GridSearchFacts.

(** *** Texts and paths *)

Lemma append_cons c (s t : string) : String c s +:+ t = String c (s +:+ t).
Proof. reflexivity. Qed.

Lemma append_nil (t : string) : "" +:+ t = t.
Proof. reflexivity. Qed.

Lemma split_sep_cons s : ∃ h t, split_sep s = h :: t.
Proof.
  induction s as [|c s (h & t & IH)]; [by eexists _, _|].
  simpl. case_bool_decide; [by eexists _, _|]. rewrite IH. by eexists _, _.
Qed.

(** Splitting a text with a separator between two parts. *)
Lemma split_sep_join (s t : string) :
  split_sep (s +:+ "/" +:+ t) = split_sep s ++ split_sep t.
Proof.
  induction s as [|c s IH].
  - by rewrite append_nil, append_cons, append_nil.
  - rewrite append_cons. simpl. case_bool_decide; [by rewrite IH|].
    rewrite IH. by destruct (split_sep_cons s) as (h & t' & ->).
Qed.

Lemma split_sep_single s : has_sep s = false → split_sep s = [s].
Proof.
  induction s as [|c s IH]; [done|]. simpl.
  intros [Hc Hs]%orb_false_iff. rewrite Hc. by rewrite (IH Hs).
Qed.

Lemma endswith_sep_append (s t : string) :
  t ≠ "" → endswith_sep (s +:+ t) = endswith_sep t.
Proof.
  intros Ht. induction s as [|c s IH]; [done|].
  rewrite append_cons. simpl. rewrite IH.
  destruct (s +:+ t) eqn:Hst; [|done].
  destruct s; [by rewrite append_nil in Hst|by rewrite append_cons in Hst].
Qed.

Lemma endswith_sep_plain s : has_sep s = false → endswith_sep s = false.
Proof.
  induction s as [|c s IH]; [done|]. simpl.
  intros [Hc Hs]%orb_false_iff. destruct s; [done|]. by apply IH.
Qed.

Lemma startswith_sep_plain s : has_sep s = false → startswith_sep s = false.
Proof. destruct s; [done|]. simpl. by intros [-> _]%orb_false_iff. Qed.

Lemma startswith_sep_append (s t : string) :
  s ≠ "" → startswith_sep (s +:+ t) = startswith_sep s.
Proof. by destruct s. Qed.

Lemma append_not_empty (s t : string) : t ≠ "" → s +:+ t ≠ "".
Proof. intros Ht. destruct s; [by rewrite append_nil|by rewrite append_cons]. Qed.

(** [os.path.join] over components that hold no separator: the components
    come back when the joined text is split. *)
Lemma join_components (rest : list string) (path : string) :
  path ≠ "" → endswith_sep path = false →
  Forall (λ s, has_sep s = false ∧ s ≠ "") rest →
  split_sep (fold_left join_step rest path) = split_sep path ++ rest ∧
  startswith_sep (fold_left join_step rest path) = startswith_sep path.
Proof.
  intros Hne Hend Hrest. revert path Hne Hend.
  induction Hrest as [|b rest [Hb Hbne] _ IH]; intros path Hne Hend.
  - simpl. by rewrite app_nil_r.
  - simpl. unfold join_step at 2 4.
    rewrite (startswith_sep_plain _ Hb), Hend, bool_decide_eq_false_2 by done. simpl.
    destruct (IH (path +:+ "/" +:+ b)) as [Hsplit Hstart].
    + apply append_not_empty. by rewrite append_cons.
    + rewrite endswith_sep_append by by rewrite append_cons.
      rewrite append_cons, append_nil. simpl.
      destruct b; [done|]. by apply (endswith_sep_plain (String _ _)).
    + rewrite Hsplit, Hstart. split.
      * rewrite split_sep_join, (split_sep_single _ Hb). by rewrite <- app_assoc.
      * by apply startswith_sep_append.
Qed.

Lemma filter_all {A} (P : A → Prop) `{!∀ x, Decision (P x)} (l : list A) :
  Forall P l → filter P l = l.
Proof.
  induction 1 as [|x l Hx _ IH]; [done|]. by rewrite filter_cons_True, IH.
Qed.

(** *** [==] on the example values and on tuples *)

Lemma pyval_eq_refl v : pyval_eq v v = true.
Proof.
  destruct v as [n|s|b| |l]; simpl; try done.
  - apply Z.eqb_refl.
  - apply String.eqb_refl.
  - by destruct b.
  - by apply bool_decide_eq_true_2.
Qed.

Lemma pyval_eq_sym v w : pyval_eq v w = true → pyval_eq w v = true.
Proof.
  destruct v as [a|s|a| |l], w as [b|t|b| |k]; simpl; try done.
  - by rewrite Z.eqb_sym.
  - by rewrite String.eqb_sym.
  - by destruct a, b.
  - intros Heq%bool_decide_eq_true. by apply bool_decide_eq_true_2.
Qed.

Lemma pyval_eq_trans u v w :
  pyval_eq u v = true → pyval_eq v w = true → pyval_eq u w = true.
Proof.
  destruct u as [a|s|a| |l], v as [b|t|b| |k], w as [c|r|c| |m]; simpl; try done;
    intros H1 H2;
    rewrite ?Z.eqb_eq, ?String.eqb_eq, ?bool_decide_eq_true, ?Bool.eqb_true_iff in *;
    try congruence;
    repeat match goal with x : bool |- _ => destruct x end; simpl in *; lia.
Qed.

Lemma tuple_eq_refl {A} (eq : A → A → bool) (s : list A) :
  (∀ x, eq x x = true) → tuple_eq eq s s = true.
Proof. intros Heq. induction s as [|x s IH]; [done|]. simpl. by rewrite Heq, IH. Qed.

Lemma tuple_eq_sym {A} (eq : A → A → bool) (s t : list A) :
  (∀ x y, eq x y = true → eq y x = true) →
  tuple_eq eq s t = true → tuple_eq eq t s = true.
Proof.
  intros Heq. revert t. induction s as [|x s IH]; intros [|y t]; simpl; try done.
  intros [Hxy Hst]%andb_true_iff. by rewrite (Heq _ _ Hxy), (IH _ Hst).
Qed.

Lemma tuple_eq_trans {A} (eq : A → A → bool) (s t u : list A) :
  (∀ x y z, eq x y = true → eq y z = true → eq x z = true) →
  tuple_eq eq s t = true → tuple_eq eq t u = true → tuple_eq eq s u = true.
Proof.
  intros Heq. revert t u.
  induction s as [|x s IH]; intros [|y t] [|z u]; simpl; try done.
  intros [Hxy Hst]%andb_true_iff [Hyz Htu]%andb_true_iff.
  by rewrite (Heq _ _ _ Hxy Hyz), (IH _ _ Hst Htu).
Qed.

Section properties.
Context {V : Type} `{!PyObject V} `{!PyHashing}.
Context {State TradeSummary Metrics Universe : Type}.

#[local] Abbreviation Result := (GridSearchResult V State TradeSummary Metrics).
#[local] Abbreviation World := (world Result (GridCombination V)).
#[local] Abbreviation Worker := (GridSearchWorker V State TradeSummary Metrics Universe).
#[local] Abbreviation Stage := (stage V State TradeSummary Metrics).
#[local] Abbreviation Pool := (pool V State TradeSummary Metrics).

(** *** [GridSearchResult.save], [load] and [run_grid_combination] *)

Lemma artifact_parts (full : Path) : parts (joinpath full result_pickle) ≠ [].
Proof.
  unfold joinpath. change (is_absolute result_pickle) with false. cbn iota.
  change (parts result_pickle) with ["result.pickle"]. simpl. by destruct (parts full).
Qed.

Lemma save_eq (r : Result) full (w : World) :
  get_full_result_path (combination r) = inr full →
  save r w = (mkdir_parents full;; write_pickle (joinpath full result_pickle) r) w.
Proof. intros Hfull. unfold save. by rewrite Hfull. Qed.

Lemma save_raise (r : Result) e (w : World) :
  get_full_result_path (combination r) = inl e → save r w = (w, inl e).
Proof. intros Hfull. unfold save. by rewrite Hfull. Qed.

(** What a successful [save] leaves on disk. *)
Lemma save_stores (r : Result) (w w' : World) :
  save r w = (w', inr ()) →
  ∃ full, get_full_result_path (combination r) = inr full ∧
          lookup_path (joinpath full result_pickle) w' = Some (File r) ∧
          trace w' = trace w.
Proof.
  destruct (get_full_result_path (combination r)) as [e|full] eqn:Hfull.
  { by rewrite (save_raise _ _ _ Hfull). }
  rewrite (save_eq _ _ _ Hfull). intros Hs. exists full. split; [done|].
  destruct (mkdir_parents full w) as [w1 [e|[]]] eqn:Hmk.
  { by stops Hmk in Hs. }
  steps Hmk in Hs. apply mkdir_parents_ok in Hmk as (Htr & _ & _).
  unfold write_pickle in Hs.
  destruct (lookup_path (parent _) w1) as [[|?]|]; [|done..].
  destruct (lookup_path (joinpath full result_pickle) w1) as [[|?]|]; [done| |];
    injection Hs as <-; (split; [|done]);
    rewrite lookup_path_files by apply artifact_parts; simpl; by rewrite lookup_insert_eq.
Qed.

Lemma load_eq (c : GridCombination V) full (w : World) :
  get_full_result_path c = inr full →
  load c w = (result ← read_pickle (joinpath full result_pickle);
              mret (set_cached true result)) w.
Proof. intros Hfull. unfold load. by rewrite Hfull. Qed.

Lemma load_state (c : GridCombination V) (w : World) : (load c w).1 = w.
Proof.
  destruct (get_full_result_path c) as [e|full] eqn:Hfull.
  { unfold load. by rewrite Hfull. }
  rewrite (load_eq _ _ _ Hfull). apply bind_state; [|done].
  unfold read_pickle. by destruct (lookup_path _ w) as [[|?]|].
Qed.

Lemma load_stored (c : GridCombination V) full r0 (w : World) :
  get_full_result_path c = inr full →
  lookup_path (joinpath full result_pickle) w = Some (File r0) →
  load c w = (w, inr (set_cached true r0)).
Proof.
  intros Hfull Hl. rewrite (load_eq _ _ _ Hfull).
  unfold mbind, M_bind, read_pickle. by rewrite Hl.
Qed.

Lemma load_directory (c : GridCombination V) full (w : World) :
  get_full_result_path c = inr full →
  lookup_path (joinpath full result_pickle) w = Some Dir →
  load c w = (w, inl IsADirectoryError).
Proof.
  intros Hfull Hl. rewrite (load_eq _ _ _ Hfull).
  unfold mbind, M_bind, read_pickle. by rewrite Hl.
Qed.

(** X1: [save] and [load] are a round trip.  When [result.save()] returns,
    [GridSearchResult.load] of the result's combination returns that result
    with [cached] set to [True], and reads only.  This holds for relative and
    for absolute result paths: both functions use the full result path. *)
Theorem save_load_round_trip (r : Result) (w : World) :
  (save r w).2 = inr () →
  (load (combination r) (save r w).1).2 = inr (set_cached true r) ∧
  (load (combination r) (save r w).1).1 = (save r w).1.
Proof.
  intros Hs. destruct (save r w) as [w' [e|[]]] eqn:Hsave; [done|]. simpl.
  apply save_stores in Hsave as (full & Hfull & Hl & _).
  by rewrite (load_stored _ _ _ _ Hfull Hl).
Qed.

(** A successful [save] keeps every entry but its own artifact. *)
Lemma save_keeps (r : Result) full (w w' : World) q x :
  save r w = (w', inr ()) →
  get_full_result_path (combination r) = inr full →
  q ≠ joinpath full result_pickle →
  files w !! q = Some x → files w' !! q = Some x.
Proof.
  intros Hsave Hfull Hne Hq. rewrite (save_eq _ _ _ Hfull) in Hsave.
  destruct (mkdir_parents full w) as [w1 [e|[]]] eqn:Hmk.
  { by stops Hmk in Hsave. }
  steps Hmk in Hsave. apply mkdir_parents_ok in Hmk as (_ & Hfiles & _).
  assert (files w1 !! q = Some x) as Hq1 by by rewrite Hfiles, Hq.
  unfold write_pickle in Hsave.
  destruct (lookup_path (parent _) w1) as [[|?]|]; [|done..].
  destruct (lookup_path (joinpath full result_pickle) w1) as [[|?]|]; [done| |];
    injection Hsave as <-; simpl; by rewrite lookup_insert_ne.
Qed.


Lemma joinpath_absorbs (rp rel : Path) :
  is_absolute rp = true ∨ parts rp = [] →
  joinpath rp (joinpath rp rel) = joinpath rp rel.
Proof.
  destruct rp as [a ps], rel as [b qs]. unfold joinpath. simpl.
  intros Hrp. destruct b; [done|]. simpl. destruct a; [done|].
  destruct Hrp as [Habs|Hnil]; [done|]. by rewrite Hnil.
Qed.

(** X3: [has_result] finds what [save] wrote when the result path is
    absolute or is the current directory: after [result.save()] has returned,
    [GridSearchResult.has_result] of the result's combination is [True]. *)
Theorem has_result_after_save (r : Result) (w : World) :
  is_absolute (result_path (combination r)) = true ∨
    parts (result_path (combination r)) = [] →
  (save r w).2 = inr () →
  (has_result (combination r) (save r w).1).2 = inr true.
Proof.
  intros Hrp Hs. destruct (save r w) as [w' [e|[]]] eqn:Hsave; [done|]. simpl.
  apply save_stores in Hsave as (full & Hfull & Hl & _).
  rewrite (has_result_eq _ _ _ Hfull). simpl.
  assert (joinpath (result_path (combination r)) full = full) as ->.
  { revert Hfull. unfold get_full_result_path.
    destruct (get_relative_result_path (combination r)) as [e|rel]; [done|].
    intros [= <-]. by apply joinpath_absorbs. }
  rewrite Hl. by rewrite bool_decide_eq_true_2 by eauto.
Qed.

Lemma load_trace (c : GridCombination V) (w : World) : trace (load c w).1 = trace w.
Proof. by rewrite load_state. Qed.

Lemma miss_trace (worker : Worker) u c (w : World) :
  trace ((result ← call_worker worker u c; save result;; mret result) w).1 = trace w ++ [c].
Proof.
  destruct (call_worker worker u c w) as [w0 [e|r]] eqn:Hcall.
  - stops Hcall. simpl. by rewrite <- (call_worker_trace worker u c w), Hcall.
  - steps Hcall.
    assert (trace w0 = trace w ++ [c]) as <-.
    { by rewrite <- (call_worker_trace worker u c w), Hcall. }
    rewrite <- (save_trace r w0).
    unfold mbind, M_bind. by destruct (save r w0) as [w1 [e|[]]].
Qed.

(** One run invokes the worker at most once, and on its own combination. *)
Lemma run_grid_combination_trace (worker : Worker) u c (w : World) :
  trace (run_grid_combination worker u c w).1 = trace w ∨
  trace (run_grid_combination worker u c w).1 = trace w ++ [c].
Proof.
  unfold run_grid_combination.
  destruct (has_result c w) as [w0 [e|found]] eqn:Hhas.
  - stops Hhas. left. simpl. by rewrite <- (has_result_state c w), Hhas.
  - steps Hhas.
    assert (w0 = w) as -> by by rewrite <- (has_result_state c w), Hhas.
    destruct found.
    + left. apply load_trace.
    + right. apply miss_trace.
Qed.

(** X4: a combination is run once.  Under an absolute result path and with a
    worker that returns the result of the combination it was given: when
    [run_grid_combination] returns a result, the same call made again returns
    that result with [cached] set to [True], does not invoke the worker and
    leaves the files as they are.  (Under a relative result path the check
    of the second call looks beside the artifact.) *)
Theorem run_grid_combination_resumes (worker : Worker) u c r (w : World) :
  is_absolute (result_path c) = true →
  (∀ f, ∀ r', (worker u c f).2 = inr r' → combination r' = c) →
  (run_grid_combination worker u c w).2 = inr r →
  let after := (run_grid_combination worker u c w).1 in
  (run_grid_combination worker u c after).2 = inr (set_cached true r) ∧
  (run_grid_combination worker u c after).1 = after.
Proof.
  intros Habs Hworker Hrun after. subst after.
  destruct (get_full_result_path c) as [e|full] eqn:Hfull.
  { exfalso. revert Hrun. unfold run_grid_combination, has_result. by rewrite Hfull. }
  destruct (lookup_path (joinpath full result_pickle) w) as [[|r0]|] eqn:Hl.
  - exfalso. revert Hrun. unfold run_grid_combination.
    steps (has_result_absolute _ _ w Habs Hfull). rewrite Hl.
    rewrite bool_decide_eq_true_2 by eauto.
    by rewrite (load_directory _ _ _ Hfull Hl).
  - rewrite (run_grid_combination_hit worker u c full r0 w Habs Hfull Hl) in Hrun |- *.
    simpl in *. injection Hrun as <-.
    by rewrite (run_grid_combination_hit worker u c full r0 w Habs Hfull Hl).
  - rewrite (run_grid_combination_miss worker u c full w Habs Hfull Hl) in Hrun |- *.
    destruct (call_worker worker u c w) as [w0 [e|r']] eqn:Hcall.
    { by stops Hcall in Hrun. }
    steps Hcall in Hrun. steps Hcall.
    assert (combination r' = c) as Hc.
    { apply (Hworker (files w)). revert Hcall. unfold call_worker, on_files.
      unfold mbind, M_bind, record_event, modify. simpl.
      destruct (worker u c (files w)) as [f' res]. by intros [= _ ->]. }
    destruct (save r' w0) as [w1 [e|[]]] eqn:Hsave.
    { by stops Hsave in Hrun. }
    steps Hsave in Hrun. steps Hsave. simpl in Hrun. injection Hrun as ->. simpl.
    apply save_stores in Hsave as (full' & Hfull' & Hstored & _).
    rewrite Hc, Hfull in Hfull'. injection Hfull' as <-.
    by rewrite (run_grid_combination_hit worker u c full r w1 Habs Hfull Hstored).
Qed.

Lemma mapM_Forall2 {S A B} (f : A → M S B) l ys (s : S) :
  Forall2 (λ x y, f x s = (s, inr y)) l ys → mapM f l s = (s, inr ys).
Proof.
  induction 1 as [|x y l ys Hx _ IH]; [done|].
  rewrite mapM_cons. steps Hx. by steps IH.
Qed.

(** Reading a cached result, step by step. *)
Lemma task_step_cached (worker : Worker) u c full r0 (w : World) :
  is_absolute (result_path c) = true →
  get_full_result_path c = inr full →
  lookup_path (joinpath full result_pickle) w = Some (File r0) →
  task_step worker u c Queued w = (w, Checked true) ∧
  task_step worker u c (Checked true) w = (w, Finished (inr (set_cached true r0))).
Proof.
  intros Habs Hfull Hl. cbn [task_step].
  rewrite (has_result_absolute _ _ _ Habs Hfull), Hl.
  rewrite bool_decide_eq_true_2 by eauto.
  by rewrite (load_stored _ _ _ _ Hfull Hl).
Qed.

Lemma omap_results {A} (f : A → Result) (l : list A) (ss : list Stage) :
  Forall2 (λ a s, s = Finished (inr (f a))) l ss → omap result_of ss = f <$> l.
Proof. induction 1 as [|a s l ss -> _ IH]; [done|]. cbn. f_equal. exact IH. Qed.

(** X5: a search over results that are all on disk.  Under absolute result
    paths, if every combination of the search has its [result.pickle], then
    [perform_grid_search] returns the stored results, each with [cached] set
    to [True], never invokes the worker and leaves the files as they are:
    with one thread in the order of the combinations; with the pool, whatever
    the schedule of its threads, in the order in which the tasks complete. *)
Theorem perform_grid_search_all_cached schedule (worker : Worker) u combinations
    max_workers stored (w : World) :
  Forall2 (λ c r0, is_absolute (result_path c) = true ∧
                   ∃ full, get_full_result_path c = inr full ∧
                           lookup_path (joinpath full result_pickle) w = Some (File r0))
          combinations stored →
  let search := perform_grid_search schedule worker u combinations max_workers w in
  search.1 = w ∧
  ∃ results, search.2 = inr results ∧
             results ≡ₚ set_cached true <$> stored ∧
             ((max_workers ≤ 1)%Z → results = set_cached true <$> stored).
Proof.
  intros Hall search. subst search. unfold perform_grid_search.
  case_bool_decide as Hmany.
  - (* the pool: every step reads *)
    set (good := λ (r0 : Result) (s : Stage),
           s = Queued ∨ s = Checked true ∨ s = Finished (inr (set_cached true r0))).
    assert (∀ l (pw : Pool * World),
              pw.2 = w → Forall2 good stored (stages pw.1) →
              let pw' := foldl (λ pw i, pool_tick worker u combinations
                                          (Z.to_nat max_workers) i pw) pw l in
              pw'.2 = w ∧ Forall2 good stored (stages pw'.1)) as Hinv.
    { induction l as [|i l IH]; intros [p w0] Hw Hgood; [done|].
      cbn [foldl]. cbn [fst snd] in Hw, Hgood. subst w0. apply IH.
      - destruct (pool_tick_cases worker u combinations (Z.to_nat max_workers) i p w)
          as [->|(c & s & Hc & Hs & Hfin & _ & ->)]; [done|].
        cbn [snd].
        destruct (Forall2_lookup_r _ _ _ _ _ Hgood Hs) as (r0 & Hr0 & Hcase).
        destruct (Forall2_lookup_l _ _ _ _ _ Hall Hc) as (r0' & Hr0' & Habs & full & Hfull & Hl).
        rewrite Hr0 in Hr0'. injection Hr0' as <-.
        destruct (task_step_cached worker u c full r0 w Habs Hfull Hl) as [Hq Hch].
        destruct Hcase as [->|[->| ->]]; [by rewrite Hq|by rewrite Hch|done].
      - destruct (pool_tick_cases worker u combinations (Z.to_nat max_workers) i p w)
          as [->|(c & s & Hc & Hs & Hfin & _ & ->)]; [done|].
        cbn [fst].
        assert (∀ s' (q : Pool), stages (collect s' q) = stages q) as ->.
        { intros s' q. unfold collect. by destruct (failure q), s' as [| | | | |[|]]. }
        cbn [stages].
        destruct (Forall2_lookup_r _ _ _ _ _ Hgood Hs) as (r0 & Hr0 & Hcase).
        destruct (Forall2_lookup_l _ _ _ _ _ Hall Hc) as (r0' & Hr0' & Habs & full & Hfull & Hl).
        rewrite Hr0 in Hr0'. injection Hr0' as <-.
        destruct (task_step_cached worker u c full r0 w Habs Hfull Hl) as [Hq Hch].
        rewrite <- (list_insert_id stored i r0 Hr0). apply Forall2_insert; [done|].
        destruct Hcase as [->|[->| ->]]; [rewrite Hq|rewrite Hch|done]; unfold good; auto. }
    unfold as_completed.
    destruct (pool_run_end worker u combinations (Z.to_nat max_workers) schedule w)
      as [(Hlen & Hnone & Hsome) Hend]; [lia|].
    destruct (Hinv (schedule ++ drain (length combinations))
                (MkPool (replicate (length combinations) Queued) [] None, w)) as [Hw Hgood].
    { done. }
    { cbn [fst stages]. apply Forall2_same_length_lookup_2.
      - rewrite length_replicate. symmetry. by eapply Forall2_length.
      - intros i r0 s _ [-> _]%lookup_replicate. by left. }
    fold (pool_run worker u combinations (Z.to_nat max_workers) schedule w) in Hw, Hgood.
    destruct (pool_run worker u combinations (Z.to_nat max_workers) schedule w) as [p w'].
    cbn [fst snd] in *. split; [done|].
    destruct (failure p) as [e|].
    { destruct (Hsome e eq_refl) as (i & Hi).
      destruct (Forall2_lookup_r _ _ _ _ _ Hgood Hi) as (r0 & _ & [?|[?|?]]); done. }
    exists (completed p). split; [done|]. split; [|lia].
    destruct (Hnone eq_refl) as [-> _].
    rewrite (omap_results (set_cached true) stored); [done|].
    apply Forall2_same_length_lookup_2; [by eapply Forall2_length|].
    intros i r0 s Hr0 Hs.
    pose proof (Forall2_lookup_lr _ _ _ _ _ _ Hgood Hr0 Hs) as Hcase.
    pose proof (proj1 (Forall_forall _ _) (Hend eq_refl) s (list_elem_of_lookup_2 _ _ _ Hs))
      as Hfin.
    by destruct Hcase as [->|[->| ->]].
  - assert (mapM (run_grid_combination worker u) combinations w
            = (w, inr (set_cached true <$> stored))) as ->.
    { apply mapM_Forall2. apply Forall2_fmap_r.
      eapply Forall2_impl; [exact Hall|].
      intros c r0 (Habs & full & Hfull & Hl). by apply (run_grid_combination_hit _ _ _ full). }
    split; [done|]. by exists (set_cached true <$> stored).
Qed.

Lemma bind_ret_state {S A B} (c : M S A) (g : A → B) (s : S) :
  ((c ≫= λ a, mret (g a)) s).1 = (c s).1.
Proof. unfold mbind, M_bind. by destruct (c s) as [s' [e|a]]. Qed.

Lemma mapM_length {S A B} (f : A → M S B) l ys (s : S) :
  (mapM f l s).2 = inr ys → length ys = length l.
Proof.
  revert s ys. induction l as [|x l IH]; intros s ys.
  - by intros [= <-].
  - rewrite mapM_cons. destruct (f x s) as [s1 [e|y]] eqn:Hx.
    { by stops Hx. }
    steps Hx. destruct (mapM f l s1) as [s2 [e|ys']] eqn:Hrest.
    { by stops Hrest. }
    steps Hrest. intros [= <-]. simpl. f_equal. apply (IH s1). by rewrite Hrest.
Qed.

Lemma mapM_run_trace (worker : Worker) u l (w : World) :
  ∃ invoked, invoked `sublist_of` l ∧
    trace (mapM (run_grid_combination worker u) l w).1 = trace w ++ invoked.
Proof.
  revert w. induction l as [|c l IH]; intros w.
  - exists []. split; [done|]. simpl. by rewrite app_nil_r.
  - rewrite mapM_cons.
    destruct (run_grid_combination worker u c w) as [w1 [e|y]] eqn:Hc.
    + stops Hc. simpl.
      destruct (run_grid_combination_trace worker u c w) as [Ht|Ht];
        rewrite Hc in Ht; simpl in Ht; rewrite Ht.
      * exists []. split; [apply sublist_nil_l|by rewrite app_nil_r].
      * exists [c]. split; [|done]. apply sublist_skip, sublist_nil_l.
    + steps Hc. destruct (IH w1) as (inv & Hsub & Htr).
      rewrite (bind_ret_state _ (cons y)).
      rewrite Htr.
      destruct (run_grid_combination_trace worker u c w) as [Ht|Ht];
        rewrite Hc in Ht; simpl in Ht; rewrite Ht.
      * exists inv. split; [by apply sublist_cons|done].
      * exists (c :: inv). split; [by apply sublist_skip|]. by rewrite <- app_assoc.
Qed.

(** X7: what a search does with the worker, and how many results it gives.
    Over one thread ([max_workers <= 1]), for every worker, the worker is
    invoked only on combinations of the search, in their order and at most
    once for each place in the list, whether the search returns or raises.
    For every [max_workers], and with the pool whatever the schedule of its
    threads, a search that returns gives one result per combination. *)
Theorem perform_grid_search_invocations schedule (worker : Worker) u combinations
    max_workers (w : World) :
  let search := perform_grid_search schedule worker u combinations max_workers w in
  ((max_workers ≤ 1)%Z →
   ∃ invoked, invoked `sublist_of` combinations ∧ trace search.1 = trace w ++ invoked) ∧
  match search.2 with
  | inr results => length results = length combinations
  | inl _ => True
  end.
Proof.
  intros search. subst search. unfold perform_grid_search.
  case_bool_decide as Hmany.
  - split; [lia|].
    pose proof (as_completed_outcome schedule worker u combinations (Z.to_nat max_workers) w
                  ltac:(lia)) as Hout.
    cbn zeta in Hout.
    destruct (as_completed worker u combinations (Z.to_nat max_workers) schedule w).2
      as [e|results]; [done|].
    destruct Hout as [Hperm Hall].
    by rewrite Hperm, (omap_result_of_length _ _ Hall).
  - split; [intros _; apply mapM_run_trace|].
    destruct (mapM (run_grid_combination worker u) combinations w).2 as [e|results] eqn:Hres;
      [done|].
    by apply mapM_length in Hres.
Qed.

(** One run under an absolute result path, with a worker that keeps what is
    on disk and returns the result of its combination: what was on disk stays,
    and the artifact holds the result returned, up to the [cached] flag. *)
Lemma run_grid_combination_step (worker : Worker) u c r (w w1 : World) :
  is_absolute (result_path c) = true →
  (∀ f q x, f !! q = Some x → (worker u c f).1 !! q = Some x) →
  (∀ f r', (worker u c f).2 = inr r' → combination r' = c) →
  run_grid_combination worker u c w = (w1, inr r) →
  (∀ q x, files w !! q = Some x → files w1 !! q = Some x) ∧
  ∃ full r0, get_full_result_path c = inr full ∧
             files w1 !! joinpath full result_pickle = Some (File r0) ∧
             set_cached true r0 = set_cached true r.
Proof.
  intros Habs Hkeeps Hcomb Hrun.
  destruct (get_full_result_path c) as [e|full] eqn:Hfull.
  { exfalso. revert Hrun. unfold run_grid_combination, has_result. by rewrite Hfull. }
  destruct (lookup_path (joinpath full result_pickle) w) as [[|r0]|] eqn:Hl.
  - exfalso. revert Hrun. unfold run_grid_combination.
    steps (has_result_absolute _ _ w Habs Hfull). rewrite Hl.
    rewrite bool_decide_eq_true_2 by eauto.
    by rewrite (load_directory _ _ _ Hfull Hl).
  - rewrite (run_grid_combination_hit worker u c full r0 w Habs Hfull Hl) in Hrun.
    injection Hrun as <- <-. split; [done|]. exists full, r0.
    rewrite lookup_path_files in Hl by apply artifact_parts. done.
  - rewrite (run_grid_combination_miss worker u c full w Habs Hfull Hl) in Hrun.
    rewrite lookup_path_files in Hl by apply artifact_parts.
    destruct (call_worker worker u c w) as [w0 [e|r']] eqn:Hcall.
    { by stops Hcall in Hrun. }
    steps Hcall in Hrun. rewrite call_worker_eq in Hcall. injection Hcall as Hw0 Hres.
    pose proof (Hcomb _ _ Hres) as Hc.
    destruct (save r' w0) as [w2 [e|[]]] eqn:Hsave.
    { by stops Hsave in Hrun. }
    steps Hsave in Hrun. injection Hrun as -> ->.
    assert (get_full_result_path (combination r) = inr full) as Hfull' by by rewrite Hc.
    split.
    + intros q x Hq. eapply (save_keeps r full w0 w1 q x Hsave Hfull').
      * intros ->. by rewrite Hl in Hq.
      * rewrite <- Hw0. simpl. by apply Hkeeps.
    + exists full, r. split; [done|]. split; [|done].
      apply save_stores in Hsave as (full2 & Hfull2 & Hstored & _).
      rewrite Hfull' in Hfull2. injection Hfull2 as <-.
      by rewrite lookup_path_files in Hstored by apply artifact_parts.
Qed.

Lemma mapM_run_keeps (worker : Worker) u l rs (w w1 : World) :
  Forall (λ c, is_absolute (result_path c) = true) l →
  (∀ c f q x, f !! q = Some x → (worker u c f).1 !! q = Some x) →
  (∀ c f r', (worker u c f).2 = inr r' → combination r' = c) →
  mapM (run_grid_combination worker u) l w = (w1, inr rs) →
  ∀ q x, files w !! q = Some x → files w1 !! q = Some x.
Proof.
  intros Habs Hkeeps Hcomb. revert w rs.
  induction Habs as [|c l Hc _ IH]; intros w rs Hrun q x Hq.
  - by injection Hrun as <- _.
  - rewrite mapM_cons in Hrun.
    destruct (run_grid_combination worker u c w) as [w0 [e|r]] eqn:Hstep.
    { by stops Hstep in Hrun. }
    steps Hstep in Hrun.
    destruct (mapM (run_grid_combination worker u) l w0) as [w2 [e|rs']] eqn:Hrest.
    { by stops Hrest in Hrun. }
    steps Hrest in Hrun. injection Hrun as -> _.
    eapply IH; [exact Hrest|].
    by apply (run_grid_combination_step worker u c r w w0 Hc (Hkeeps c) (Hcomb c) Hstep).
Qed.

Lemma mapM_run_again (worker : Worker) u l rs (w w1 : World) :
  Forall (λ c, is_absolute (result_path c) = true) l →
  (∀ c f q x, f !! q = Some x → (worker u c f).1 !! q = Some x) →
  (∀ c f r', (worker u c f).2 = inr r' → combination r' = c) →
  mapM (run_grid_combination worker u) l w = (w1, inr rs) →
  ∀ w2 : World, (∀ q x, files w1 !! q = Some x → files w2 !! q = Some x) →
  mapM (run_grid_combination worker u) l w2 = (w2, inr (set_cached true <$> rs)).
Proof.
  intros Habs Hkeeps Hcomb. revert w rs.
  induction Habs as [|c l Hc Habs IH]; intros w rs Hrun w2 Hsub.
  - by injection Hrun as _ <-.
  - rewrite mapM_cons in Hrun.
    destruct (run_grid_combination worker u c w) as [w0 [e|r]] eqn:Hstep.
    { by stops Hstep in Hrun. }
    steps Hstep in Hrun.
    destruct (mapM (run_grid_combination worker u) l w0) as [w3 [e|rs']] eqn:Hrest.
    { by stops Hrest in Hrun. }
    steps Hrest in Hrun. injection Hrun as -> <-.
    destruct (run_grid_combination_step worker u c r w w0 Hc (Hkeeps c) (Hcomb c) Hstep)
      as (_ & full & r0 & Hfull & Hstored & Hflag).
    rewrite mapM_cons.
    assert (lookup_path (joinpath full result_pickle) w2 = Some (File r0)) as Hl.
    { rewrite lookup_path_files by apply artifact_parts. apply Hsub.
      by apply (mapM_run_keeps worker u l rs' w0 w1 Habs Hkeeps Hcomb Hrest). }
    steps (run_grid_combination_hit worker u c full r0 w2 Hc Hfull Hl).
    steps (IH _ _ Hrest w2 Hsub). by rewrite fmap_cons, Hflag.
Qed.

(** X6: a search over one thread is resumable.  With [max_workers <= 1],
    under absolute result paths without [..] components (so that different
    paths are different files), with a worker that returns the result of the
    combination it was given and removes or replaces nothing on disk: when
    [perform_grid_search] has returned, the same search made again returns
    the same results, all with [cached] set to [True], without invoking the
    worker and leaving the files as they are; also when several combinations
    share a result directory. *)
Theorem perform_grid_search_resumes schedule (worker : Worker) u combinations
    max_workers results (w : World) :
  (max_workers ≤ 1)%Z →
  Forall (λ c, is_absolute (result_path c) = true ∧
               ∀ full, get_full_result_path c = inr full → ".." ∉ parts full)
         combinations →
  (∀ c f q x, f !! q = Some x → (worker u c f).1 !! q = Some x) →
  (∀ c f r, (worker u c f).2 = inr r → combination r = c) →
  (perform_grid_search schedule worker u combinations max_workers w).2 = inr results →
  let after := (perform_grid_search schedule worker u combinations max_workers w).1 in
  let again := perform_grid_search schedule worker u combinations max_workers after in
  again.2 = inr (set_cached true <$> results) ∧ again.1 = after.
Proof.
  intros Hone Hpaths Hkeeps Hcomb Hrun after again. subst again after.
  assert (Forall (λ c, is_absolute (result_path c) = true) combinations) as Habs.
  { eapply Forall_impl; [exact Hpaths|]. by intros c [? _]. }
  assert (∀ w0 : World,
            perform_grid_search schedule worker u combinations max_workers w0
            = mapM (run_grid_combination worker u) combinations w0) as Heq.
  { intros w0. unfold perform_grid_search. by rewrite bool_decide_eq_false_2 by lia. }
  rewrite !Heq in *.
  destruct (mapM (run_grid_combination worker u) _ w) as [w1 [e|rs]] eqn:Hfirst; [done|].
  simpl in Hrun. injection Hrun as ->. simpl.
  by rewrite (mapM_run_again worker u _ _ w w1 Habs Hkeeps Hcomb Hfirst w1).
Qed.

(** *** [prepare_grid_combinations] and what it returns *)

Lemma product_fmap {A B} (f : A → B) (ls : list (list A)) :
  (λ t : list A, f <$> t) <$> product ls = product ((λ l : list A, f <$> l) <$> ls).
Proof.
  induction ls as [|l ls IH]; [done|].
  cbn [product fmap list_fmap]. rewrite <- IH. clear IH.
  induction l as [|x l IHl]; [done|].
  cbn [fmap list_fmap mbind list_bind]. rewrite fmap_app. f_equal; [|exact IHl].
  rewrite <- !list_fmap_compose. done.
Qed.

Lemma NoDup_product {A} (ls : list (list A)) :
  Forall NoDup ls → NoDup (product ls).
Proof.
  induction 1 as [|l ls Hl _ IH]; [apply NoDup_singleton|].
  cbn [product]. apply NoDup_bind; [|intros x _|done].
  - intros x1 x2 y _ _ (t1 & -> & _)%list_elem_of_fmap (t2 & [= -> _] & _)%list_elem_of_fmap.
    done.
  - apply NoDup_fmap_2; [|done]. by intros t1 t2 [= ->].
Qed.

Lemma args_lists_values (grid : list (string * list V)) :
  (λ ps : list (GridParameter V), value <$> ps) <$> args_lists grid = grid.*2.
Proof.
  unfold args_lists. rewrite <- list_fmap_compose. apply list_fmap_ext.
  intros _ [k vs] _. simpl. rewrite <- list_fmap_compose. apply list_fmap_id.
Qed.

(** What a call that returns has done: the result directory has been set up
    and the combinations are those of the product, none with a value of
    unsupported type. *)
Lemma prepare_grid_combinations_returns grid rp clear combinations (w : World) :
  NoDup grid.*1 →
  (prepare_grid_combinations grid rp clear w).2 = inr combinations →
  grid ≠ [] ∧
  combinations = MkGridCombination rp <$> product (args_lists grid) ∧
  (prepare_result_path rp clear w).2 = inr () ∧
  (prepare_grid_combinations grid rp clear w).1 = (prepare_result_path rp clear w).1.
Proof.
  intros Hnodup. rewrite prepare_grid_combinations_split.
  destruct (prepare_result_path rp clear w) as [w1 [e|[]]] eqn:Hsetup.
  { by stops Hsetup. }
  steps Hsetup. intros Hbuild.
  destruct (decide (grid = [])) as [->|Hne].
  { by rewrite build_combinations_empty in Hbuild. }
  split; [done|].
  rewrite (build_combinations_outcome grid rp w1 Hne Hnodup
             (prepare_result_path_ok _ _ _ _ Hsetup)) in Hbuild |- *.
  simpl in *. by case_bool_decide; simplify_eq.
Qed.

(** X8: [destructure] gives the values in the order of the grid.  When
    [prepare_grid_combinations] returns, the value lists of the returned
    combinations, read with [destructure], are [itertools.product] of the
    candidate lists in the order of the grid's keys: the i-th value of every
    combination is a candidate of the i-th key, and the combinations come in
    the order of the product (the last key varies fastest). *)
Theorem prepare_grid_combinations_destructure grid rp clear combinations (w : World) :
  NoDup grid.*1 →
  (prepare_grid_combinations grid rp clear w).2 = inr combinations →
  destructure <$> combinations = product grid.*2.
Proof.
  intros Hnodup Hret.
  destruct (prepare_grid_combinations_returns _ _ _ _ _ Hnodup Hret) as (_ & -> & _).
  rewrite <- list_fmap_compose.
  rewrite <- args_lists_values, <- product_fmap. done.
Qed.

(** X9: candidates without repetition give combinations without repetition.
    If no candidate list holds a value twice, no two of the returned
    combinations carry the same values, so the returned list has no
    duplicate. *)
Theorem prepare_grid_combinations_distinct grid rp clear combinations (w : World) :
  NoDup grid.*1 →
  Forall (λ item, NoDup item.2) grid →
  (prepare_grid_combinations grid rp clear w).2 = inr combinations →
  NoDup (destructure <$> combinations) ∧ NoDup combinations.
Proof.
  intros Hnodup Hcand Hret.
  assert (NoDup (destructure <$> combinations)) as Hvalues.
  { destruct (prepare_grid_combinations_returns _ _ _ _ _ Hnodup Hret) as (_ & -> & _).
    rewrite <- list_fmap_compose.
    change (destructure ∘ MkGridCombination rp)
      with (λ ps : list (GridParameter V), value <$> ps).
    rewrite product_fmap, args_lists_values.
    apply NoDup_product. by apply Forall_fmap. }
  split; [done|]. by apply NoDup_fmap_1 in Hvalues.
Qed.

Lemma as_dict_temp (ps : list (GridParameter V)) (m0 : gmap string (GridParameter V)) :
  foldl (λ d p, <[name p := value p]> d) (value <$> m0) ps
  = value <$> foldl (λ m p, <[name p := p]> m) m0 ps.
Proof.
  revert m0. induction ps as [|p ps IH]; intros m0; [done|].
  simpl. by rewrite <- IH, fmap_insert.
Qed.

(** X10: the keyword view of a prepared combination.  For every combination
    [prepare_grid_combinations] returns, [as_dict] maps the i-th key of the
    grid to the i-th value of [destructure], a candidate of that key, and has
    no other key. *)
Theorem prepare_grid_combinations_as_dict grid rp clear combinations (w : World) :
  NoDup grid.*1 →
  (prepare_grid_combinations grid rp clear w).2 = inr combinations →
  Forall (λ c, Forall2 (λ item v, v ∈ item.2 ∧ as_dict c !! item.1 = Some v)
                       grid (destructure c) ∧
               ∀ k, k ∉ grid.*1 → as_dict c !! k = None) combinations.
Proof.
  intros Hnodup Hret.
  destruct (prepare_grid_combinations_returns _ _ _ _ _ Hnodup Hret) as (_ & -> & _).
  apply Forall_fmap, Forall_forall. intros ps Hps. simpl.
  apply elem_of_args_product in Hps.
  assert (name <$> ps = grid.*1) as Hnames.
  { clear -Hps. induction Hps as [|p item ps grid [Hp _] _ IH]; [done|].
    rewrite !fmap_cons. by f_equal. }
  assert (∀ k, as_dict (MkGridCombination rp ps) !! k
               = value <$> foldl (λ m p, <[name p := p]> m)
                                 (∅ : gmap string (GridParameter V)) ps !! k) as Hdict.
  { intros k. unfold as_dict. simpl.
    rewrite <- lookup_fmap, <- as_dict_temp. by rewrite fmap_empty. }
  rewrite <- Hnames in Hnodup.
  destruct (temp_lookup ps ∅ Hnodup) as [Hin Hout].
  split.
  - unfold destructure. simpl. apply Forall2_fmap_r.
    apply Forall2_same_length_lookup_2.
    { symmetry. by eapply Forall2_length. }
    intros i item p Hitem Hp.
    destruct (Forall2_lookup_lr _ _ _ _ _ _ Hps Hp Hitem) as [Hname Hval].
    simpl. split; [done|].
    rewrite <- Hname, Hdict, (Hin p); [done|]. by eapply list_elem_of_lookup_2.
  - intros k Hk. rewrite <- Hnames in Hk. by rewrite Hdict, (Hout k Hk), lookup_empty.
Qed.

(** X12: the combinations returned are ready to run.  When
    [prepare_grid_combinations] returns, every combination has the given
    result path, that path is a directory, and the combination's full result
    path can be rendered: [has_result], [load] and [save] will not fail on
    the path of a returned combination. *)
Theorem prepare_grid_combinations_ready grid rp clear combinations (w : World) :
  NoDup grid.*1 →
  (prepare_grid_combinations grid rp clear w).2 = inr combinations →
  Forall (λ c, result_path c = rp ∧
               lookup_path rp (prepare_grid_combinations grid rp clear w).1 = Some Dir ∧
               ∃ full, get_full_result_path c = inr full) combinations.
Proof.
  intros Hnodup. rewrite prepare_grid_combinations_split.
  destruct (prepare_result_path rp clear w) as [w1 [e|[]]] eqn:Hsetup.
  { by stops Hsetup. }
  steps Hsetup. intros Hbuild.
  destruct (decide (grid = [])) as [->|Hne].
  { by rewrite build_combinations_empty in Hbuild. }
  pose proof (prepare_result_path_ok _ _ _ _ Hsetup) as Hdir.
  rewrite (build_combinations_outcome grid rp w1 Hne Hnodup Hdir) in Hbuild |- *.
  simpl in *. case_bool_decide as Hsup; [|done]. injection Hbuild as <-.
  apply Forall_fmap, Forall_forall. intros ps Hps. simpl.
  split; [done|]. split; [done|].
  assert (ps ≠ []) as Hps_ne.
  { apply elem_of_args_product in Hps. destruct Hps; [|done]. done. }
  pose proof (validate_cases (MkGridCombination rp ps) Hps_ne) as Hv.
  rewrite Forall_forall in Hsup.
  rewrite bool_decide_eq_true_2 in Hv by by apply Hsup.
  unfold validate in Hv. unfold get_full_result_path.
  destruct (get_relative_result_path (MkGridCombination rp ps)) as [e|rel]; [done|].
  by eexists.
Qed.

Lemma foldl_as_dict_lookup (ps : list (GridParameter V)) (d : gmap string V) k :
  foldl (λ d p, <[name p := value p]> d) d ps !! k =
    match last (filter (λ p, name p = k) ps) with
    | Some p => Some (value p)
    | None => d !! k
    end.
Proof.
  revert d. induction ps as [|p ps IH]; intros d; [done|].
  cbn [foldl]. rewrite IH. destruct (decide (name p = k)) as [Hk|Hk].
  - rewrite filter_cons_True by done.
    destruct (filter (λ p, name p = k) ps) as [|q l] eqn:Hf; simpl.
    + by rewrite <- Hk, lookup_insert_eq.
    + by destruct (last (q :: l)) eqn:Hl; [|by apply last_None in Hl].
  - rewrite filter_cons_False by done.
    destruct (last _); [done|]. by rewrite lookup_insert_ne.
Qed.

(** X11: [as_dict] keeps, for each name, the value of the last parameter of
    that name, and has no key that is not the name of a parameter: with
    repeated names the earlier values are lost. *)
Theorem as_dict_lookup (c : GridCombination V) k :
  as_dict c !! k = value <$> last (filter (λ p, name p = k) (parameters c)).
Proof.
  unfold as_dict. rewrite foldl_as_dict_lookup.
  destruct (last _); [done|]. apply lookup_empty.
Qed.

Lemma foldr_mkdir_present {C} (f : gmap Path (node C)) l :
  Forall (λ q, is_Some (f !! q)) l → foldr mkdir_step f l = f.
Proof.
  induction 1 as [|q l [x Hq] _ IH]; [done|].
  simpl. rewrite IH. unfold mkdir_step. by rewrite Hq.
Qed.

Lemma mkdir_parents_again {C E} p (w w1 : world C E) :
  mkdir_parents p w = (w1, inr ()) → mkdir_parents p w1 = (w1, inr ()).
Proof.
  intros Hmk. pose proof (mkdir_parents_ok _ _ _ Hmk) as (_ & Hfiles & _).
  unfold mkdir_parents in Hmk |- *. case_bool_decide as Hfile; [done|].
  rewrite bool_decide_eq_false_2.
  - f_equal. unfold set_files. rewrite foldr_mkdir_present; [by destruct w1|].
    apply Forall_forall. intros q Hq. rewrite Hfiles.
    destruct (files w !! q); [done|]. by rewrite bool_decide_eq_true_2.
  - intros (q & Hq & Hisfile)%Exists_exists. apply Hfile, Exists_exists.
    exists q. split; [done|]. revert Hisfile. unfold is_file.
    rewrite !lookup_path_files by by eapply lineage_parts.
    rewrite Hfiles. destruct (files w !! q); [done|].
    by rewrite bool_decide_eq_true_2.
Qed.

(** X13: preparing again changes nothing.  When
    [prepare_grid_combinations] without [clear_cached_results] has returned,
    the same call made again returns the same combinations and leaves the
    files as they are. *)
Theorem prepare_grid_combinations_again grid rp combinations (w : World) :
  (prepare_grid_combinations grid rp false w).2 = inr combinations →
  let after := (prepare_grid_combinations grid rp false w).1 in
  (prepare_grid_combinations grid rp false after).2 = inr combinations ∧
  (prepare_grid_combinations grid rp false after).1 = after.
Proof.
  intros Hret after. subst after. revert Hret.
  rewrite !prepare_grid_combinations_split.
  assert (∀ w0 : World, prepare_result_path rp false w0 = mkdir_parents rp w0) as Hsetup.
  { done. }
  destruct (prepare_result_path rp false w) as [w1 [e|[]]] eqn:Hfirst.
  { by stops Hfirst. }
  steps Hfirst. intros Hbuild.
  assert ((build_combinations grid rp w1).1 = w1) as Hw1 by apply build_combinations_state.
  rewrite Hw1.
  rewrite Hsetup in Hfirst. apply mkdir_parents_again in Hfirst. rewrite <- Hsetup in Hfirst.
  steps Hfirst. by rewrite Hw1.
Qed.

(** X14: with nothing to clear, [clear_cached_results] makes no difference.
    If the result directory does not exist, or exists with its ancestors as
    an empty directory, the call with [clear_cached_results=True] has the
    outcome and the effect of the call without. *)
Theorem prepare_grid_combinations_clear_empty grid rp (w : World) :
  lookup_path rp w = None ∨
  (parts rp ≠ [] ∧ has_entries rp w = false ∧
   Forall (λ q, files w !! q = Some Dir) (lineage rp)) →
  prepare_grid_combinations grid rp true w = prepare_grid_combinations grid rp false w.
Proof.
  intros Hcase. rewrite !prepare_grid_combinations_split.
  assert (prepare_result_path rp true w = prepare_result_path rp false w) as Hsame;
    [|unfold mbind, M_bind; by rewrite Hsame].
  change (prepare_result_path rp false w) with (mkdir_parents rp w).
  unfold prepare_result_path, clear_result_path.
  destruct Hcase as [Hnone|(Hparts & Hempty & Hdirs)].
  - assert ((ex ← path_exists rp; if ex : bool then rmdir rp else mret ()) w
            = (w, inr ())) as Hclear.
    { steps (path_exists_eq rp w). rewrite Hnone.
      by rewrite bool_decide_eq_false_2 by by intros [? ?]. }
    by steps Hclear.
  - assert (files w !! rp = Some Dir) as Hrp.
    { rewrite Forall_forall in Hdirs. by apply Hdirs, lineage_self. }
    assert ((ex ← path_exists rp; if ex : bool then rmdir rp else mret ()) w
            = (set_files (delete rp) w, inr ())) as Hclear.
    { steps (path_exists_eq rp w). rewrite lookup_path_files, Hrp by done.
      rewrite bool_decide_eq_true_2 by eauto.
      unfold rmdir. destruct (parts rp); [done|]. by rewrite Hrp, Hempty. }
    steps Hclear.
    unfold mkdir_parents.
    rewrite !bool_decide_eq_false_2.
    + f_equal. unfold set_files. simpl. f_equal.
      rewrite (foldr_mkdir_present (files w))
        by (eapply Forall_impl; [exact Hdirs|]; by intros q ->).
      apply map_eq. intros q. rewrite foldr_mkdir_lookup.
      destruct (decide (q = rp)) as [->|Hne].
      * rewrite lookup_delete_eq, Hrp. by rewrite bool_decide_eq_true_2 by by apply lineage_self.
      * rewrite lookup_delete_ne by done. destruct (files w !! q) eqn:Hq; [done|].
        case_bool_decide as Hin; [|done].
        rewrite Forall_forall in Hdirs. by rewrite (Hdirs q Hin) in Hq.
    + intros (q & Hq & Hisfile)%Exists_exists. revert Hisfile. unfold is_file.
      rewrite lookup_path_files by by eapply lineage_parts.
      rewrite Forall_forall in Hdirs. by rewrite (Hdirs q Hq).
    + intros (q & Hq & Hisfile)%Exists_exists. revert Hisfile. unfold is_file.
      rewrite lookup_path_files by by eapply lineage_parts. simpl.
      destruct (decide (q = rp)) as [->|Hne].
      * by rewrite lookup_delete_eq.
      * rewrite lookup_delete_ne by done.
        rewrite Forall_forall in Hdirs. by rewrite (Hdirs q Hq).
Qed.

(** *** Result paths *)

Lemma rendered_component (p : GridParameter V) : rendered p ≠ "" ∧ rendered p ≠ ".".
Proof.
  unfold rendered. destruct (name p) as [|c n].
  - rewrite append_nil, append_cons. split; [done|]. by intros [= ? ?].
  - rewrite append_cons. split; [done|]. intros [= _ Hrest]. revert Hrest.
    apply append_not_empty. by rewrite append_cons.
Qed.

Lemma mapM_to_path (ps : list (GridParameter V)) :
  Forall (λ p, supported (value p)) ps → mapM to_path ps = inr (rendered <$> ps).
Proof.
  intros Hps. apply mapM_exn_all. eapply Forall_impl; [exact Hps|].
  intros p Hp. by destruct (to_path_cases p) as [[_ ->]|[? _]].
Qed.

(** The relative result path of such a combination: one component per
    parameter. *)
Lemma get_relative_result_path_plain (c : GridCombination V) :
  parameters c ≠ [] →
  Forall (λ p, supported (value p) ∧ has_sep (rendered p) = false) (parameters c) →
  get_relative_result_path c = inr (MkPath false (rendered <$> parameters c)).
Proof.
  intros Hne Hps. unfold get_relative_result_path.
  rewrite mapM_to_path by (eapply Forall_impl; [exact Hps|]; by intros p [? _]).
  destruct (parameters c) as [|p ps]; [done|]. clear Hne.
  apply Forall_cons in Hps as [[_ Hp] Hps]. rewrite fmap_cons.
  cbn [mbind exn_bind os_path_join mret exn_ret]. f_equal.
  destruct (join_components (rendered <$> ps) (rendered p)) as [Hsplit Hstart].
  - apply rendered_component.
  - by apply endswith_sep_plain.
  - apply Forall_fmap. eapply Forall_impl; [exact Hps|].
    intros q [_ Hq]. split; [done|apply rendered_component].
  - unfold parse_path. rewrite Hsplit, Hstart, (split_sep_single _ Hp).
    rewrite (startswith_sep_plain _ Hp). f_equal.
    apply filter_all. change (Forall (λ x, x ≠ "" ∧ x ≠ ".") (rendered <$> p :: ps)).
    apply Forall_fmap, Forall_forall. intros q _. apply rendered_component.
Qed.

(** X15: one directory level per parameter.  For a combination whose
    values have supported types and whose renderings [name=value] hold no
    path separator, the full result path is the result path followed by one
    component per parameter, in the order of the parameters: the result
    directory lies below [result_path]. *)
Theorem get_full_result_path_components (c : GridCombination V) :
  parameters c ≠ [] →
  Forall (λ p, supported (value p) ∧ has_sep (rendered p) = false) (parameters c) →
  get_full_result_path c =
    inr (MkPath (is_absolute (result_path c))
                (parts (result_path c) ++ (rendered <$> parameters c))).
Proof.
  intros Hne Hps. unfold get_full_result_path.
  by rewrite (get_relative_result_path_plain c Hne Hps).
Qed.

(** X16: when result directories collide.  Two such combinations under the
    same result path have the same full result path exactly when their
    parameters render alike, one by one; combinations that differ in the
    rendering of some parameter never share a result directory. *)
Theorem get_full_result_path_collision (c d : GridCombination V) :
  result_path c = result_path d →
  parameters c ≠ [] → parameters d ≠ [] →
  Forall (λ p, supported (value p) ∧ has_sep (rendered p) = false) (parameters c) →
  Forall (λ p, supported (value p) ∧ has_sep (rendered p) = false) (parameters d) →
  get_full_result_path c = get_full_result_path d ↔
  rendered <$> parameters c = rendered <$> parameters d.
Proof.
  intros Hrp Hc Hd Hpc Hpd. unfold get_full_result_path.
  rewrite (get_relative_result_path_plain c Hc Hpc).
  rewrite (get_relative_result_path_plain d Hd Hpd).
  cbn [mbind exn_bind mret exn_ret]. unfold joinpath. cbn [is_absolute parts].
  rewrite Hrp. split.
  - intros [= Heq]. by apply app_inv_head in Heq.
  - by intros ->.
Qed.

(** X17: how rendering the result path fails.  [get_relative_result_path]
    (and with it [validate], [get_full_result_path], [has_result], [load] and
    [save]) raises [NotImplementedError] when some value has an unsupported
    type, and the [TypeError] of [os.path.join] without arguments when the
    combination has no parameter; in every other case it returns. *)
Theorem get_relative_result_path_outcome (c : GridCombination V) :
  match get_relative_result_path c with
  | inr _ => parameters c ≠ [] ∧ Forall (λ p, supported (value p)) (parameters c)
  | inl e => (e = NotImplementedError ∧
              ¬ Forall (λ p, supported (value p)) (parameters c)) ∨
             (e = TypeError ∧ parameters c = [])
  end.
Proof.
  destruct (decide (parameters c = [])) as [Hnil|Hne].
  { unfold get_relative_result_path. rewrite Hnil. right. by split. }
  pose proof (validate_cases c Hne) as Hv. unfold validate in Hv.
  destruct (get_relative_result_path c) as [e|p]; simpl in Hv;
    case_bool_decide; simplify_eq; auto.
Qed.

(** *** [__eq__] and [__hash__] *)

(** X18: [==] on combinations is an equivalence relation whenever [==] on
    the parameter values is one (as it is for ints, strings and bools; not
    for a float NaN). *)
Theorem GridCombination_eq_equivalence :
  (∀ v : V, py_eq v v = true) →
  (∀ v w : V, py_eq v w = true → py_eq w v = true) →
  (∀ u v w : V, py_eq u v = true → py_eq v w = true → py_eq u w = true) →
  (∀ c : GridCombination V, GridCombination_eq c c = true) ∧
  (∀ c d : GridCombination V, GridCombination_eq c d = true → GridCombination_eq d c = true) ∧
  (∀ c d e : GridCombination V,
     GridCombination_eq c d = true → GridCombination_eq d e = true →
     GridCombination_eq c e = true).
Proof.
  intros Hrefl Hsym Htrans. unfold GridCombination_eq. split; [|split].
  - intros c. apply tuple_eq_refl. intros p. apply GridParameter_eq_true. by split.
  - intros c d. apply tuple_eq_sym.
    intros p q [Hn Hv]%GridParameter_eq_true. apply GridParameter_eq_true. split; [done|auto].
  - intros c d e. apply tuple_eq_trans.
    intros p q r [Hn1 Hv1]%GridParameter_eq_true [Hn2 Hv2]%GridParameter_eq_true.
    apply GridParameter_eq_true. split; [congruence|eauto].
Qed.

Lemma mapM_exn_defined {A B} (f : A → pyexn + B) (l : list A) :
  (∃ ys, mapM f l = inr ys) ↔ Forall (λ x, ∃ y, f x = inr y) l.
Proof.
  induction l as [|x l IH].
  - split; [done|]. by exists [].
  - split.
    + intros [ys (y & ys' & Hx & Hl & _)%mapM_exn_cons].
      apply Forall_cons. split; [by exists y|]. apply IH. by exists ys'.
    + intros [[y Hx] [ys Hl]%IH]%Forall_cons. exists (y :: ys).
      apply mapM_exn_cons. by exists y, ys.
Qed.

(** X19: [hash(combination)] returns exactly when every parameter value is
    hashable; otherwise it raises. *)
Theorem GridCombination_hash_defined (c : GridCombination V) :
  (∃ h, GridCombination_hash c = inr h) ↔
  Forall (λ p, ∃ h, py_hash (value p) = inr h) (parameters c).
Proof.
  unfold GridCombination_hash.
  transitivity (∃ hs, mapM GridParameter_hash (parameters c) = inr hs).
  - destruct (mapM GridParameter_hash (parameters c)) as [e|hs]; simpl.
    + split; by intros [? ?].
    + split; eauto.
  - rewrite mapM_exn_defined. apply Forall_iff. intros p.
    unfold GridParameter_hash. destruct (py_hash (value p)) as [e|h]; simpl.
    + split; by intros [? ?].
    + split; eauto.
Qed.

End properties.

Import GridScenarios.

Lemma save_load_round_trip_witness :
  (load (combination_a tmp_results (VInt 1))
        (save (fresh_result (combination_a tmp_results (VInt 1))) world_with_root).1).2
    = inr (set_cached true (fresh_result (combination_a tmp_results (VInt 1)))) ∧
  (load (combination_a tmp_results (VInt 1))
        (save (fresh_result (combination_a tmp_results (VInt 1))) world_with_root).1).1
    = (save (fresh_result (combination_a tmp_results (VInt 1))) world_with_root).1.
Proof.
  apply (save_load_round_trip (fresh_result (combination_a tmp_results (VInt 1)))
           world_with_root).
  vm_compute. reflexivity.
Defined.


Lemma run_grid_combination_resumes_witness :
  let c := combination_a tmp_results (VInt 1) in
  let after := (run_grid_combination fresh_worker () c world_with_root).1 in
  (run_grid_combination fresh_worker () c after).2
    = inr (set_cached true (fresh_result c)) ∧
  (run_grid_combination fresh_worker () c after).1 = after.
Proof.
  apply (run_grid_combination_resumes fresh_worker () (combination_a tmp_results (VInt 1))
           (fresh_result (combination_a tmp_results (VInt 1))) world_with_root).
  - reflexivity.
  - intros f r' [= <-]. reflexivity.
  - vm_compute. reflexivity.
Defined.

Lemma perform_grid_search_all_cached_witness :
  let search := perform_grid_search [0; 0]%nat fresh_worker ()
                  [combination_a tmp_results (VInt 1)] 16 world_cached in
  search.1 = world_cached ∧
  ∃ results,
    search.2 = inr results ∧
    results ≡ₚ set_cached true <$> [old_result (combination_a tmp_results (VInt 1))] ∧
    ((16 ≤ 1)%Z →
     results = set_cached true <$> [old_result (combination_a tmp_results (VInt 1))]).
Proof.
  apply (perform_grid_search_all_cached [0; 0]%nat fresh_worker ()
           [combination_a tmp_results (VInt 1)] 16
           [old_result (combination_a tmp_results (VInt 1))] world_cached).
  constructor; [|constructor]. split; [reflexivity|].
  exists (MkPath true ["tmp"; "results"; "a=1"]). split; vm_compute; reflexivity.
Defined.

Lemma prepare_grid_combinations_destructure_witness :
  destructure <$> (MkGridCombination tmp_results <$> product (args_lists grid_ab))
  = product grid_ab.*2.
Proof.
  apply (prepare_grid_combinations_destructure (State:=Z) (TradeSummary:=()) (Metrics:=())
           grid_ab tmp_results false _ empty_world).
  - compute_done.
  - vm_compute. reflexivity.
Defined.

Lemma prepare_grid_combinations_distinct_witness :
  NoDup (destructure <$> (MkGridCombination tmp_results <$> product (args_lists grid_ab))) ∧
  NoDup (MkGridCombination tmp_results <$> product (args_lists grid_ab)).
Proof.
  apply (prepare_grid_combinations_distinct (State:=Z) (TradeSummary:=()) (Metrics:=())
           grid_ab tmp_results false _ empty_world).
  - compute_done.
  - repeat constructor; simpl; rewrite ?elem_of_cons, ?elem_of_nil; intros H;
      repeat destruct H as [H|H]; done.
  - vm_compute. reflexivity.
Defined.

Lemma prepare_grid_combinations_as_dict_witness :
  Forall (λ c, Forall2 (λ item v, v ∈ item.2 ∧ as_dict c !! item.1 = Some v)
                       grid_ab (destructure c) ∧
               ∀ k, k ∉ grid_ab.*1 → as_dict c !! k = None)
         (MkGridCombination tmp_results <$> product (args_lists grid_ab)).
Proof.
  apply (prepare_grid_combinations_as_dict (State:=Z) (TradeSummary:=()) (Metrics:=())
           grid_ab tmp_results false _ empty_world).
  - compute_done.
  - vm_compute. reflexivity.
Defined.

Lemma prepare_grid_combinations_again_witness :
  let after := (prepare_grid_combinations (State:=Z) (TradeSummary:=()) (Metrics:=())
                  grid_ab tmp_results false empty_world).1 in
  (prepare_grid_combinations grid_ab tmp_results false after).2
    = inr (MkGridCombination tmp_results <$> product (args_lists grid_ab)) ∧
  (prepare_grid_combinations grid_ab tmp_results false after).1 = after.
Proof.
  apply (prepare_grid_combinations_again (State:=Z) (TradeSummary:=()) (Metrics:=())
           grid_ab tmp_results _ empty_world).
  vm_compute. reflexivity.
Defined.

Lemma prepare_grid_combinations_clear_empty_witness :
  prepare_grid_combinations grid_ab tmp_results true world_with_root
  = prepare_grid_combinations grid_ab tmp_results false world_with_root.
Proof.
  apply (prepare_grid_combinations_clear_empty grid_ab tmp_results world_with_root).
  right. split; [done|]. split; [vm_compute; reflexivity|].
  change (lineage tmp_results) with [MkPath true ["tmp"]; tmp_results].
  repeat constructor; vm_compute; reflexivity.
Defined.

Lemma get_full_result_path_components_witness :
  get_full_result_path
    (MkGridCombination tmp_results [MkGridParameter "a" (VInt 1); MkGridParameter "b" (VInt 10)])
  = inr (MkPath true ["tmp"; "results"; "a=1"; "b=10"]).
Proof.
  etrans.
  - apply (get_full_result_path_components
             (MkGridCombination tmp_results
                [MkGridParameter "a" (VInt 1); MkGridParameter "b" (VInt 10)])).
    + done.
    + repeat constructor; compute_done.
  - vm_compute. reflexivity.
Defined.

(** The int [1] and the str ["1"] render alike: the two combinations share
    their result directory. *)
Lemma get_full_result_path_collision_witness :
  get_full_result_path (combination_a tmp_results (VInt 1))
    = get_full_result_path (combination_a tmp_results (VStr "1")) ↔
  rendered <$> parameters (combination_a tmp_results (VInt 1))
    = rendered <$> parameters (combination_a tmp_results (VStr "1")).
Proof.
  apply (get_full_result_path_collision (combination_a tmp_results (VInt 1))
           (combination_a tmp_results (VStr "1"))).
  - reflexivity.
  - done.
  - done.
  - repeat constructor; compute_done.
  - repeat constructor; compute_done.
Defined.

Lemma GridCombination_eq_equivalence_witness :
  (∀ c : GridCombination pyval, GridCombination_eq c c = true) ∧
  (∀ c d : GridCombination pyval,
     GridCombination_eq c d = true → GridCombination_eq d c = true) ∧
  (∀ c d e : GridCombination pyval,
     GridCombination_eq c d = true → GridCombination_eq d e = true →
     GridCombination_eq c e = true).
Proof.
  apply (GridCombination_eq_equivalence (V:=pyval)).
  - exact pyval_eq_refl.
  - exact pyval_eq_sym.
  - exact pyval_eq_trans.
Defined.

Lemma GridCombination_hash_defined_witness :
  ∃ h, GridCombination_hash c7_left = inr h.
Proof.
  apply (GridCombination_hash_defined c7_left).
  repeat constructor. by eexists.
Defined.

Lemma has_result_after_save_witness :
  (has_result (combination_a tmp_results (VInt 1))
     (save (fresh_result (combination_a tmp_results (VInt 1))) world_with_root).1).2
  = inr true.
Proof.
  apply (has_result_after_save (fresh_result (combination_a tmp_results (VInt 1)))
           world_with_root).
  - left. reflexivity.
  - vm_compute. reflexivity.
Defined.

Lemma perform_grid_search_resumes_witness :
  let after := (perform_grid_search [] fresh_worker () three_combinations 1
                  world_with_root).1 in
  let again := perform_grid_search [] fresh_worker () three_combinations 1 after in
  again.2 = inr (set_cached true <$> (fresh_result <$> three_combinations)) ∧
  again.1 = after.
Proof.
  apply (perform_grid_search_resumes [] fresh_worker () three_combinations 1
           (fresh_result <$> three_combinations) world_with_root).
  - lia.
  - repeat constructor; intros full Hfull; vm_compute in Hfull; injection Hfull as <-;
      compute_done.
  - intros c f q x Hq. exact Hq.
  - intros c f r [= <-]. reflexivity.
  - vm_compute. reflexivity.
Defined.

Lemma perform_grid_search_invocations_witness :
  let search := perform_grid_search [] picky_worker () three_combinations 1 world_with_root in
  (∃ invoked, invoked `sublist_of` three_combinations ∧
              trace search.1 = trace world_with_root ++ invoked) ∧
  match search.2 with
  | inr results => length results = length three_combinations
  | inl _ => True
  end.
Proof.
  destruct (perform_grid_search_invocations [] picky_worker () three_combinations 1
              world_with_root) as [Htrace Hcount].
  split; [apply Htrace; lia|exact Hcount].
Defined.

Lemma prepare_grid_combinations_ready_witness :
  Forall (λ c, result_path c = tmp_results ∧
               lookup_path tmp_results
                 (prepare_grid_combinations (State:=Z) (TradeSummary:=()) (Metrics:=())
                    grid_ab tmp_results false empty_world).1 = Some Dir ∧
               ∃ full, get_full_result_path c = inr full)
         (MkGridCombination tmp_results <$> product (args_lists grid_ab)).
Proof.
  apply (prepare_grid_combinations_ready (State:=Z) (TradeSummary:=()) (Metrics:=())
           grid_ab tmp_results false _ empty_world).
  - compute_done.
  - vm_compute. reflexivity.
Defined.

End GridSearchProperties.
